(** * tiktok-mp4-api: rendition selection, metadata cache, file names and
      the download materializer of [app.py], embedded and verified. *)

From Stdlib Require Import QArith Qround Qpower Qabs Lqa String Ascii Sorted.
From Stdlib Require PrimFloat FloatOps SpecFloat.
From stdpp Require Import base list gmap.

Local Open Scope Q_scope.

(** ** Python strings

    A Python [str] is a sequence of Unicode code points.  Slicing
    ([base[:100]]), [str.strip] and [re.sub] on a character class all work
    code point by code point, so a string is a list of code points. *)

Abbreviation pystr := (list N).

Definition py (s : string) : pystr :=
  map N_of_ascii (list_ascii_of_string s).

(** Truthiness of the values the handlers test with [if x] / [not x] /
    [x or y]: [None] and the empty string are false. *)
Definition truthy (x : option pystr) : bool :=
  match x with
  | Some (_ :: _) => true
  | _ => false
  end.

(** [a or b] on optional strings. *)
Definition py_or (a b : option pystr) : option pystr :=
  if truthy a then a else b.

Fixpoint startswith (p s : pystr) : bool :=
  match p, s with
  | [], _ => true
  | _ :: _, [] => false
  | a :: p', b :: s' => (a =? b)%N && startswith p' s'
  end.

(** [needle in hay] for two strings. *)
Fixpoint contains (needle hay : pystr) : bool :=
  startswith needle hay ||
  match hay with
  | [] => false
  | _ :: t => contains needle t
  end.

(** ** Format descriptors and extraction results

    [d.get(k)] returns [None] both for a missing key and for a key bound to
    [None], so a field read only through [.get(k)] is an [option].  The one
    key read with a default, [info.get("ext", "mp4")], keeps the difference
    between "missing" and "bound to None" ([ext_field]).  Numbers (Python
    ints and finite floats) are rationals: their order is the order of [Q]. *)

Record format := {
  f_ext    : option pystr;
  f_vcodec : option pystr;
  f_height : option Q;
  f_fps    : option Q;
  f_tbr    : option Q;
  f_url    : option pystr;
}.

Record download := { filepath : option pystr }.

Inductive ext_field :=
| ExtMissing
| ExtBound (v : option pystr).

Record info := {
  i_title  : option pystr;
  i_id     : option pystr;
  i_ext    : ext_field;
  i_width  : option Q;
  i_height : option Q;
  i_duration : option Q;
  i_url    : option pystr;
  i_requested_formats : option (list format);
  i_formats : option (list format);
  i_requested_downloads : option (list download);
}.

(** What [ydl.extract_info] returns: a dict with the fields above and
    possibly an ["entries"] list of such dicts. *)
Record result := {
  r_info : info;
  r_entries : option (list info);
}.

(** ** The sort key and the stable descending sort *)

Definition or0 (x : option Q) : Q :=
  match x with Some q => q | None => 0 end.

(** [lambda f: (f.get("height") or 0, f.get("fps") or 0, f.get("tbr") or 0)] *)
Definition sort_key (f : format) : Q * Q * Q :=
  (or0 (f_height f), or0 (f_fps f), or0 (f_tbr f)).

(** Python's [<] on the key tuples: lexicographic. *)
Definition key_ltb (a b : Q * Q * Q) : bool :=
  let '(h1, r1, t1) := a in
  let '(h2, r2, t2) := b in
  match h1 ?= h2 with
  | Lt => true
  | Gt => false
  | Eq => match r1 ?= r2 with
          | Lt => true
          | Gt => false
          | Eq => match t1 ?= t2 with Lt => true | _ => false end
          end
  end.

Arguments key_ltb : simpl never.
Arguments sort_key : simpl never.

Definition key_lt (a b : Q * Q * Q) : Prop :=
  a.1.1 < b.1.1 \/
  (a.1.1 == b.1.1 /\ (a.1.2 < b.1.2 \/ (a.1.2 == b.1.2 /\ a.2 < b.2))).

Definition key_le (a b : Q * Q * Q) : Prop := ~ key_lt b a.

(** [l.sort(key=sort_key, reverse=True)]: Python's sort is stable, also
    with [reverse=True], so elements with equal keys keep their order.  A
    stable sort has one possible result; insertion from the right computes
    it. *)
Fixpoint insert_desc (x : format) (l : list format) : list format :=
  match l with
  | [] => [x]
  | y :: l' =>
      if key_ltb (sort_key x) (sort_key y) then y :: insert_desc x l'
      else x :: y :: l'
  end.

Fixpoint sort_desc (l : list format) : list format :=
  match l with
  | [] => []
  | x :: l' => insert_desc x (sort_desc l')
  end.

(** ** Rendition selection, [extract_info] lines 95-109 *)

Definition is_preferred (f : format) : bool :=
  bool_decide (f_ext f = Some (py "mp4")) &&
  contains (py "avc") (default [] (f_vcodec f)).

Definition preferred (fmts : list format) : list format :=
  List.filter is_preferred fmts.

Definition with_url (fmts : list format) : list format :=
  List.filter (fun f => truthy (f_url f)) fmts.

(** Lines 100-109: the body of [if not direct and info.get("formats")]. *)
Definition select_from_formats (direct : option pystr) (fmts : list format)
  : option pystr :=
  match sort_desc (preferred fmts) with
  | best :: _ => f_url best
  | [] =>
      match sort_desc (with_url fmts) with
      | best :: _ => f_url best
      | [] => direct
      end
  end.

Definition nonempty {A : Type} (l : option (list A)) : bool :=
  match l with
  | Some (_ :: _) => true
  | _ => false
  end.

(** [info["requested_formats"][0].get("url")], for a non-empty list. *)
Definition first_requested (i : info) : option pystr :=
  match i_requested_formats i with
  | Some (v :: _) => f_url v
  | _ => None
  end.

(** Lines 95-109.  [direct] is assigned up to three times; each [let]
    below is one of the three [if] statements. *)
Definition select_direct (i : info) : option pystr :=
  let direct := None in
  let direct :=
    if nonempty (i_requested_formats i) then first_requested i else direct in
  let direct :=
    if negb (truthy direct) && truthy (i_url i) then i_url i else direct in
  let direct :=
    if negb (truthy direct) && nonempty (i_formats i)
    then select_from_formats direct (default [] (i_formats i))
    else direct in
  direct.

(** Line 93-94: a collection stands for its first entry. *)
Definition first_entry (r : result) : info :=
  match r_entries r with
  | Some (e :: _) => e
  | _ => r_info r
  end.

(** ** Resolved metadata: the dict literal of lines 110-118 *)

Record metadata := {
  m_title : option pystr;
  m_id : option pystr;
  m_ext : option pystr;
  m_width : option Q;
  m_height : option Q;
  m_duration : option Q;
  m_direct_url : option pystr;
}.

(** [info.get("ext", "mp4")]: the default is used for a missing key only. *)
Definition get_ext (e : ext_field) : option pystr :=
  match e with
  | ExtMissing => Some (py "mp4")
  | ExtBound v => v
  end.

(** Lines 93-118, on what the extractor returned. *)
Definition resolve (r : result) : metadata :=
  let i := first_entry r in
  let direct := select_direct i in
  {| m_title := i_title i;
     m_id := i_id i;
     m_ext := get_ext (i_ext i);
     m_width := i_width i;
     m_height := i_height i;
     m_duration := i_duration i;
     m_direct_url := direct |}.

(** The body [JSONResponse] renders for such a dict: one member per key,
    [None] as [null]. *)
Inductive json :=
| JNull
| JStr (s : pystr)
| JNum (q : Q).

Definition jstr (x : option pystr) : json :=
  match x with Some s => JStr s | None => JNull end.

Definition jnum (x : option Q) : json :=
  match x with Some q => JNum q | None => JNull end.

Definition json_body (m : metadata) : list (string * json) :=
  [ ("title"%string, jstr (m_title m));
    ("id"%string, jstr (m_id m));
    ("ext"%string, jstr (m_ext m));
    ("width"%string, jnum (m_width m));
    ("height"%string, jnum (m_height m));
    ("duration"%string, jnum (m_duration m));
    ("direct_url"%string, jstr (m_direct_url m)) ].

Fixpoint member (k : string) (body : list (string * json)) : option json :=
  match body with
  | [] => None
  | (k', v) :: rest => if String.eqb k k' then Some v else member k rest
  end.

(** ** Binary64 addition

    [time.time()] returns a double and line 82 adds 600 to it in binary64:
    the sum is the exact sum rounded to the nearest double, ties to the
    even mantissa.  A double is a rational [m * 2 ^ e] with a mantissa of at
    most 53 bits and an exponent of at least -1074; comparisons of doubles
    are exact.  No overflow is modelled: the sum of a finite double and 600
    is finite. *)

Definition emin : Z := -1074.
Definition prec : Z := 53.

(** The integer part of the binary logarithm of a positive rational. *)
Definition ilog2 (x : Q) : Z :=
  let k := (Z.log2 (Qnum x) - Z.log2 (Zpos (Qden x)))%Z in
  if Qle_bool (2 ^ k) x then k else (k - 1)%Z.

(** The exponent of the doubles around the positive rational [x]. *)
Definition binade (x : Q) : Z := Z.max emin (ilog2 x - (prec - 1)).

(** The nearest integer, ties to even. *)
Definition rne (y : Q) : Z :=
  let f := Qfloor y in
  match Qcompare (y - inject_Z f) (1 # 2) with
  | Lt => f
  | Gt => (f + 1)%Z
  | Eq => if Z.even f then f else (f + 1)%Z
  end.

Definition round_pos (x : Q) : Q :=
  inject_Z (rne (x / 2 ^ binade x)) * 2 ^ binade x.

(** The double nearest to [x]. *)
Definition round64 (x : Q) : Q :=
  match Qcompare x 0 with
  | Eq => 0
  | Gt => Qred (round_pos x)
  | Lt => Qred (- round_pos (- x))
  end.

(** [a + b] on doubles. *)
Definition float_add (a b : Q) : Q := round64 (a + b).

Definition is_float (f : Q) : Prop :=
  exists m e,
    (emin <= e)%Z /\ (Z.abs m <= 2 ^ prec)%Z /\ f == inject_Z m * 2 ^ e.

(** The value of a machine double, to compare [float_add] with the
    machine's addition. *)
Definition Q_of_float (f : PrimFloat.float) : option Q :=
  match FloatOps.Prim2SF f with
  | SpecFloat.S754_zero _ => Some 0
  | SpecFloat.S754_finite s m e =>
      Some (Qred (inject_Z (if s then Zneg m else Zpos m) * 2 ^ e))
  | _ => None
  end.

Definition double (m : positive) (e : Z) : PrimFloat.float :=
  FloatOps.SF2Prim (SpecFloat.S754_finite false m e).

(** The doubles the literals [0.1] and [600.1] denote. *)
Module Literal.
Import PrimFloat.
#[warnings="-inexact-float"]
Definition f_0_1 : float := 0.1%float.
#[warnings="-inexact-float"]
Definition f_600_1 : float := 600.1%float.
End Literal.

(** ** The metadata cache, lines 71-82 *)

Definition TTL_SECONDS : Q := 600.

Section Cache.
Context {V : Type}.

Record row := { val : V; exp : Q }.

(** [a > b] on numbers. *)
Definition gtb (a b : Q) : bool :=
  match a ?= b with Gt => true | _ => false end.

(** [cache_get], with the value [time.time()] returns passed as [now].
    A stored row is a dict with two keys, hence true in [if not row]. *)

Definition cache_get (url : pystr) (now : Q) (c : gmap pystr row)
  : gmap pystr row * option V :=
  match c !! url with
  | None => (c, None)
  | Some r =>
      if gtb now (exp r) then (delete url c, None)
      else (c, Some (val r))
  end.

(** [cache_set]: the expiry is the binary64 sum of line 82. *)
Definition cache_set (url : pystr) (v : V) (now : Q) (c : gmap pystr row)
  : gmap pystr row :=
  <[url := {| val := v; exp := float_add now TTL_SECONDS |}]> c.
End Cache.

Arguments row V : clear implicits.

(** ** [safe_filename], lines 84-88 *)

(** [str.isspace] for one code point (CPython's table of white space). *)
Definition is_space (c : N) : bool :=
  ((9 <=? c) && (c <=? 13) || (28 <=? c) && (c <=? 32) ||
   (c =? 133) || (c =? 160) || (c =? 5760) ||
   (8192 <=? c) && (c <=? 8202) ||
   (c =? 8232) || (c =? 8233) || (c =? 8239) || (c =? 8287) ||
   (c =? 12288))%N.

Fixpoint drop_while (P : N -> bool) (s : pystr) : pystr :=
  match s with
  | [] => []
  | c :: t => if P c then drop_while P t else s
  end.

Fixpoint take_while (P : N -> bool) (s : pystr) : pystr :=
  match s with
  | [] => []
  | c :: t => if P c then c :: take_while P t else []
  end.

Definition strip (s : pystr) : pystr :=
  rev (drop_while is_space (rev (drop_while is_space s))).

(** The character class of line 86: less-than, greater-than, colon, double
    quote, slash, backslash, bar, question mark, star, LF, CR, TAB. *)
Definition forbidden : pystr :=
  [60; 62; 58; 34; 47; 92; 124; 63; 42; 10; 13; 9]%N.

Definition is_forbidden (c : N) : bool :=
  existsb (N.eqb c) forbidden.

Definition underscore : N := 95%N.

(** [re.sub(r'[...]', "_", base)] *)
Definition sub_forbidden (s : pystr) : pystr :=
  map (fun c => if is_forbidden c then underscore else c) s.

(** [x or fallback] on strings. *)
Definition str_or (x fallback : pystr) : pystr :=
  match x with [] => fallback | _ => x end.

Definition safe_filename_with (name : option pystr) (fallback : pystr) : pystr :=
  let base := strip (str_or (default [] name) fallback) in
  let base := sub_forbidden base in
  let base := str_or (take 100 base) fallback in
  base ++ py ".mp4".

(** The default argument [fallback="video"]. *)
Definition safe_filename (name : option pystr) : pystr :=
  safe_filename_with name (py "video").

(** ** Paths: the parts of [os.path] (POSIX) the handlers call *)

Definition slash : N := 47%N.
Definition dot : N := 46%N.

Definition endswith (p s : pystr) : bool := startswith (rev p) (rev s).

(** [os.path.join(a, b)] *)
Definition path_join (a b : pystr) : pystr :=
  if startswith [slash] b then b
  else if bool_decide (a = []) || endswith [slash] a then a ++ b
  else a ++ [slash] ++ b.

(** [s.rfind(c)]: the index of the last [c], [None] for -1. *)
Fixpoint rfind_from (c : N) (s : pystr) (i : nat) (acc : option nat)
  : option nat :=
  match s with
  | [] => acc
  | x :: t => rfind_from c t (S i) (if (x =? c)%N then Some i else acc)
  end.

Definition rfind (c : N) (s : pystr) : option nat := rfind_from c s 0 None.

(** [s.rfind(c) + 1] *)
Definition after_last (c : N) (s : pystr) : nat :=
  match rfind c s with Some i => S i | None => O end.

(** [os.path.basename(p)] *)
Definition basename (p : pystr) : pystr := drop (after_last slash p) p.

(** [os.path.dirname(p)] *)
Definition dirname (p : pystr) : pystr :=
  let head := take (after_last slash p) p in
  if forallb (N.eqb slash) head then head
  else rev (drop_while (N.eqb slash) (rev head)).

(** [os.path.splitext(p)[0]]: the last dot splits, unless only dots stand
    between the last separator and it. *)
Definition splitext_root (p : pystr) : pystr :=
  match rfind dot p with
  | None => p
  | Some d =>
      let start := after_last slash p in
      if (start <=? d)%nat &&
         existsb (fun c => negb (c =? dot)%N) (drop start (take d p))
      then take d p
      else p
  end.

(** [name.lower().endswith(".mp4")].  Lower-casing maps no code point
    other than M, P to m, p, and none to a dot or to 4, so the test reads
    the last four code points. *)
Definition ends_mp4 (name : pystr) : bool :=
  match rev name with
  | c4 :: p :: m :: d :: _ =>
      ((c4 =? 52) && ((p =? 112) || (p =? 80)) &&
       ((m =? 109) || (m =? 77)) && (d =? dot))%N
  | _ => false
  end.

(** ** The world outside the process

    The file system is the list of the paths that exist, files and
    directories apart; the clock is what [time.time()] returns. *)

Record world := {
  files : list pystr;
  dirs : list pystr;
  now : Q;
}.

Definition path_exists (p : pystr) (w : world) : bool :=
  bool_decide (p ∈ files w) || bool_decide (p ∈ dirs w).

Definition isdir (p : pystr) (w : world) : bool :=
  bool_decide (p ∈ dirs w).

(** The name of [p] inside directory [d], when [p] is directly in it. *)
Definition child_of (d p : pystr) : option pystr :=
  let pre := d ++ [slash] in
  let name := drop (length pre) p in
  if startswith pre p && negb (bool_decide (name = [])) &&
     negb (bool_decide (slash ∈ name))
  then Some name else None.

(** [os.listdir(d)] *)
Definition listdir (d : pystr) (w : world) : list pystr :=
  omap (child_of d) (files w ++ dirs w).

Definition under (d p : pystr) : bool :=
  bool_decide (p = d) || startswith (d ++ [slash]) p.

(** [shutil.rmtree(d, ignore_errors=True)]: the directory [d] and all
    that is below it go.  On a path that is no directory the call fails and
    the error is ignored; nothing is below such a path. *)
Definition rmtree (d : pystr) (w : world) : world :=
  {| files := List.filter (fun p => negb (startswith (d ++ [slash]) p)) (files w);
     dirs := List.filter (fun p => negb (under d p)) (dirs w);
     now := now w |}.

(** [os.remove(p)] on a file. *)
Definition remove_file (p : pystr) (w : world) : world :=
  {| files := List.filter (fun q => negb (bool_decide (q = p))) (files w);
     dirs := dirs w;
     now := now w |}.

(** ** Extractor options *)

Record ydl_opts := {
  quiet : bool;
  no_warnings : bool;
  skip_download : option bool;
  format_sort : option (list pystr);
  format_spec : pystr;
  prefer_free_formats : option bool;
  outtmpl : option pystr;
  merge_output_format : option pystr;
}.

Definition avc_sort : list pystr :=
  [py "codec:avc"; py "res"; py "fps"; py "br"].

(** [{**YDL_BASE, "skip_download": True}] *)
Definition YDL_BASE : ydl_opts :=
  {| quiet := true; no_warnings := true;
     skip_download := Some true;
     format_sort := Some avc_sort;
     format_spec := py "bv*+ba/b";
     prefer_free_formats := Some false;
     outtmpl := None;
     merge_output_format := None |}.

Definition opts1 (tmpl : pystr) : ydl_opts :=
  {| quiet := true; no_warnings := true;
     skip_download := None;
     format_sort := Some avc_sort;
     format_spec := py "bv*+ba/b";
     prefer_free_formats := None;
     outtmpl := Some tmpl;
     merge_output_format := Some (py "mp4") |}.

Definition opts2 (tmpl : pystr) : ydl_opts :=
  {| quiet := true; no_warnings := true;
     skip_download := None;
     format_sort := None;
     format_spec := py "best[ext=mp4][vcodec*=avc]/best[ext=mp4]/best";
     prefer_free_formats := None;
     outtmpl := Some tmpl;
     merge_output_format := None |}.

(** ** Program state, exceptions and the handler monad *)

Inductive event :=
| EvCacheGet (url : pystr)
| EvCacheSet (url : pystr)
| EvExtract (o : ydl_opts) (url : pystr) (download : bool)
| EvRmtree (d : pystr).

Inductive exn :=
| ExtractorError
| HTTPException (status : N) (detail : pystr).

Inductive outcome :=
| Raised
| Returned (r : result).

(** The module-level [_CACHE], the world, and the trace: the cache
    accesses, extractor runs and directory removals so far, oldest first. *)
Record state := {
  st_cache : gmap pystr (row metadata);
  st_world : world;
  st_trace : list event;
}.

Inductive res (A : Type) :=
| Ret (a : A)
| Raise (e : exn).

Arguments Ret {A} a.
Arguments Raise {A} e.

Definition M (A : Type) : Type := state -> state * res A.

Definition ret {A : Type} (a : A) : M A := fun s => (s, Ret a).

Definition raise {A : Type} (e : exn) : M A := fun s => (s, Raise e).

Definition bind {A B : Type} (m : M A) (k : A -> M B) : M B :=
  fun s =>
    match m s with
    | (s', Ret a) => k a s'
    | (s', Raise e) => (s', Raise e)
    end.

Notation "'do' x <- m ; k" := (bind m (fun x => k))
  (at level 10, x pattern, m at level 100, k at level 200).
Notation "'run' m ; k" := (bind m (fun _ => k))
  (at level 10, m at level 100, k at level 200).

Definition log (e : event) : M unit :=
  fun s =>
    ({| st_cache := st_cache s; st_world := st_world s;
        st_trace := st_trace s ++ [e] |}, Ret tt).

Definition get_world : M world := fun s => (s, Ret (st_world s)).

Definition set_world (w : world) : M unit :=
  fun s =>
    ({| st_cache := st_cache s; st_world := w; st_trace := st_trace s |},
     Ret tt).

Definition set_cache (c : gmap pystr (row metadata)) : M unit :=
  fun s =>
    ({| st_cache := c; st_world := st_world s; st_trace := st_trace s |},
     Ret tt).

Definition time_time : M Q := fun s => (s, Ret (now (st_world s))).

(** [cache_get] and [cache_set] on the module-level [_CACHE]; each reads
    the clock once. *)
Definition cache_get_global (url : pystr) : M (option metadata) :=
  run log (EvCacheGet url);
  do t <- time_time;
  fun s =>
    let '(c, r) := cache_get url t (st_cache s) in
    ((set_cache c s).1, Ret r).

Definition cache_set_global (url : pystr) (v : metadata) : M unit :=
  run log (EvCacheSet url);
  do t <- time_time;
  fun s => set_cache (cache_set url v t (st_cache s)) s.

(** ** The handlers

    The extractor library and the name [tempfile.mkdtemp] picks are outside
    the program: they are parameters.  The extractor sees and changes the
    world (files, clock), not the program's cache. *)

Inductive response :=
| JSONResponse (data : metadata)
| FileResponse (path media_type filename : pystr).

Definition download_failed : exn :=
  HTTPException 400
    (py "Download failed (ffmpeg missing or unsupported format).").

Section Handlers.
Variable ydl_extract_info :
  ydl_opts -> pystr -> bool -> world -> world * outcome.
Variable mkdtemp_name : world -> pystr.

(** [with YoutubeDL(opts) as ydl: ydl.extract_info(url, download=...)] *)
Definition call_ydl (o : ydl_opts) (url : pystr) (dl : bool) : M result :=
  run log (EvExtract o url dl);
  do w <- get_world;
  let '(w', out) := ydl_extract_info o url dl w in
  run set_world w';
  match out with
  | Raised => raise ExtractorError
  | Returned r => ret r
  end.

(** [extract_info], lines 90-118. *)
Definition extract_info (url : pystr) : M metadata :=
  do r <- call_ydl YDL_BASE url false;
  ret (resolve r).

(** [tempfile.mkdtemp(prefix="ttdl_")] *)
Definition mkdtemp : M pystr :=
  do w <- get_world;
  let d := mkdtemp_name w in
  run set_world {| files := files w; dirs := d :: dirs w; now := now w |};
  ret d.

Definition do_rmtree (d : pystr) : M unit :=
  run log (EvRmtree d);
  do w <- get_world;
  set_world (rmtree d w).

(** [try: ... except Exception: return None] *)
Definition except_none {A : Type} (m : M (option A)) : M (option A) :=
  fun s =>
    match m s with
    | (s', Raise _) => (s', Ret None)
    | (s', Ret a) => (s', Ret a)
    end.

(** [info["requested_downloads"][0].get("filepath")], for a non-empty
    list. *)
Definition reported_path (i : info) : option pystr :=
  match i_requested_downloads i with
  | Some (d :: _) => filepath d
  | _ => None
  end.

(** Lines 146-148: the extractor reported a path, and it exists. *)
Definition reported_exists (w : world) (i : info) : bool :=
  nonempty (i_requested_downloads i) && truthy (reported_path i) &&
  path_exists (default [] (reported_path i)) w.

(** Lines 146-152: where the downloaded file is. *)
Definition locate (tmpdir : pystr) (w : world) (i : info) : option pystr :=
  if reported_exists w i then reported_path i
  else
    match List.find ends_mp4 (listdir tmpdir w) with
    | Some name => Some (path_join tmpdir name)
    | None => None
    end.

(** [try_download], lines 142-154. *)
Definition try_download (url tmpdir : pystr) (opts : ydl_opts)
  : M (option pystr) :=
  except_none (
    do r <- call_ydl opts url true;
    do w <- get_world;
    ret (locate tmpdir w (r_info r))).

(** [yt_dlp_download_to_temp], lines 120-162. *)
Definition yt_dlp_download_to_temp (url : pystr) (title_hint : option pystr)
  : M (pystr * pystr) :=
  do tmpdir <- mkdtemp;
  let tmpl := path_join tmpdir (py "%(id)s.%(ext)s") in
  do first <- try_download url tmpdir (opts1 tmpl);
  do path <- (if truthy first then ret first
              else try_download url tmpdir (opts2 tmpl));
  do w <- get_world;
  if negb (truthy path) || negb (path_exists (default [] path) w) then
    run do_rmtree tmpdir;
    raise download_failed
  else
    let p := default [] path in
    let fname :=
      safe_filename (py_or title_hint (Some (splitext_root (basename p)))) in
    ret (p, fname).

(** [api_tiktok], lines 164-170.  A cached value is a dict with seven
    keys, hence true in [if cached]. *)
Definition api_tiktok (url : pystr) : M response :=
  do cached <- cache_get_global url;
  match cached with
  | Some data => ret (JSONResponse data)
  | None =>
      do data <- extract_info url;
      run cache_set_global url data;
      ret (JSONResponse data)
  end.

(** The background task of [api_tiktok_download].  [os.remove] raises on
    a directory, and the bare [except] then skips the rest. *)
Definition cleanup (path : pystr) : M unit :=
  do w <- get_world;
  let d := dirname path in
  if path_exists path w && isdir path w then ret tt
  else
    run (if path_exists path w then set_world (remove_file path w)
         else ret tt);
    do w' <- get_world;
    if isdir d w' then do_rmtree d else ret tt.

(** [api_tiktok_download], lines 172-182: the handler proper. *)
Definition api_tiktok_download (url : pystr) : M response :=
  do meta <- extract_info url;
  do (path, fname) <-
    yt_dlp_download_to_temp url (py_or (m_title meta) (m_id meta));
  ret (FileResponse path (py "video/mp4") fname).

(** A whole download request: the handler, then, once the response is
    sent, its background task. *)
Definition download_request (url : pystr) : M response :=
  do resp <- api_tiktok_download url;
  match resp with
  | FileResponse path _ _ => run cleanup path; ret resp
  | _ => ret resp
  end.
End Handlers.

(** ** Notions the statements use *)

(** [f] is the maximum of [l] by the sort key, and the first one in list
    order when several elements have the maximal key. *)
Definition is_first_max (l : list format) (f : format) : Prop :=
  exists l1 l2,
    l = l1 ++ f :: l2 /\
    (forall g, g ∈ l1 -> key_lt (sort_key g) (sort_key f)) /\
    (forall g, g ∈ l2 -> key_le (sort_key g) (sort_key f)).

(** Sorted from the greatest key down. *)
Definition descending (l : list format) : Prop :=
  Sorted (fun a b => key_le (sort_key b) (sort_key a)) l.

(** [s] occurs in [t]. *)
Definition substring (s t : pystr) : Prop :=
  exists a b, t = a ++ s ++ b.

Definition is_cache_event (e : event) : bool :=
  match e with
  | EvCacheGet _ | EvCacheSet _ => true
  | _ => false
  end.

(** The option sets of the download-mode extractor runs in a trace. *)
Fixpoint strategies (tr : list event) : list ydl_opts :=
  match tr with
  | [] => []
  | EvExtract o _ true :: tr' => o :: strategies tr'
  | _ :: tr' => strategies tr'
  end.

(** The events a computation added to the trace. *)
Definition new_events (s s' : state) : list event :=
  drop (length (st_trace s)) (st_trace s').

(** What one extractor run in download mode yields: the path [locate]
    finds, [None] when the extractor raised. *)
Definition yield (tmpdir : pystr) (out : world * outcome) : option pystr :=
  match out.2 with
  | Raised => None
  | Returned r => locate tmpdir out.1 (r_info r)
  end.

(** A strategy fails: the extractor raises, or no file is found after it
    returned. *)
Definition strategy_fails
    (ydl : ydl_opts -> pystr -> bool -> world -> world * outcome)
    (url tmpdir : pystr) (o : ydl_opts) (w : world) : Prop :=
  match ydl o url true w with
  | (_, Raised) => True
  | (w', Returned r) => locate tmpdir w' (r_info r) = None
  end.

(** From [s] to [s'] the cache map is the same and the trace grew by
    events that are no cache reads or writes. *)
Definition cache_frame (s s' : state) : Prop :=
  st_cache s' = st_cache s /\
  exists evs, st_trace s' = st_trace s ++ evs /\
              Forall (fun e => is_cache_event e = false) evs.

(** The state [s] with another cache map. *)
Definition with_cache (c : gmap pystr (row metadata)) (s : state) : state :=
  {| st_cache := c; st_world := st_world s; st_trace := st_trace s |}.

(** A computation that does not read the cache map and does not write it:
    run with another map it gives the same result, the same world and
    trace, and that map. *)
Definition cache_blind {A : Type} (m : M A) : Prop :=
  forall s c, m (with_cache c s) = (with_cache c (m s).1, (m s).2).

(** ** Sample inputs *)

Definition mk_format (e v : option pystr) (h : option Q) (u : option pystr)
  : format :=
  {| f_ext := e; f_vcodec := v; f_height := h; f_fps := None; f_tbr := None;
     f_url := u |}.

Definition mk_info (u : option pystr) (req fmts : option (list format))
  : info :=
  {| i_title := Some (py "clip"); i_id := Some (py "7301");
     i_ext := ExtMissing; i_width := None; i_height := None;
     i_duration := None; i_url := u;
     i_requested_formats := req; i_formats := fmts;
     i_requested_downloads := None |}.

(** A requested format without a URL, next to a top-level URL. *)
Definition sample_requested_no_url : info :=
  mk_info (Some (py "https://v.example/top"))
          (Some [mk_format (Some (py "mp4")) (Some (py "avc1")) None None])
          None.

(** One preferred descriptor whose URL is the empty string. *)
Definition sample_empty_url : list format :=
  [mk_format (Some (py "mp4")) (Some (py "avc1.64001f")) (Some 720) (Some [])].

(** The same descriptor with another codec: not a preferred one. *)
Definition sample_empty_url_vp9 : list format :=
  [mk_format (Some (py "mp4")) (Some (py "vp9")) (Some 720) (Some [])].

(** The best preferred descriptor has no URL; a VP9 one has. *)
Definition sample_best_no_url : list format :=
  [mk_format (Some (py "mp4")) (Some (py "avc1.64001f")) (Some 1080) None;
   mk_format (Some (py "webm")) (Some (py "vp9")) (Some 720)
             (Some (py "https://v.example/vp9"))].

(** Heights 480, 720, 1080, all MP4/AVC, and a taller WebM. *)
Definition sample_heights : list format :=
  [mk_format (Some (py "mp4")) (Some (py "avc1")) (Some 480)
             (Some (py "https://v.example/480"));
   mk_format (Some (py "mp4")) (Some (py "avc1")) (Some 1080)
             (Some (py "https://v.example/1080"));
   mk_format (Some (py "mp4")) (Some (py "avc1")) (Some 720)
             (Some (py "https://v.example/720"));
   mk_format (Some (py "webm")) (Some (py "vp9")) (Some 2160)
             (Some (py "https://v.example/2160"))].

(** An extraction result whose "ext" key is bound to [None]. *)
Definition sample_ext_none : result :=
  {| r_info :=
       {| i_title := Some (py "clip"); i_id := Some (py "7301");
          i_ext := ExtBound None; i_width := Some 576; i_height := Some 1024;
          i_duration := Some 15;
          i_url := Some (py "https://v.example/top");
          i_requested_formats := None; i_formats := None;
          i_requested_downloads := None |};
     r_entries := None |}.

Definition sample_url : pystr := py "https://www.tiktok.com/@u/video/7301".

Definition sample_metadata : metadata :=
  resolve {| r_info := mk_info None None (Some sample_heights);
             r_entries := None |}.

(** The cache after successive reads at the times [ts]. *)
Fixpoint read_many {V : Type} (url : pystr) (ts : list Q)
    (c : gmap pystr (row V)) : gmap pystr (row V) :=
  match ts with
  | [] => c
  | t :: ts' => read_many url ts' (cache_get url t c).1
  end.

(** An extractor that cannot reach the platform, one that cannot merge
    (no ffmpeg) but fetches a single stream, and a fixed temporary name. *)
Definition ydl_offline : ydl_opts -> pystr -> bool -> world -> world * outcome :=
  fun _ _ _ w => (w, Raised).

Definition sample_tmpdir : pystr := py "/tmp/ttdl_k3w0".

Definition sample_file : pystr := py "/tmp/ttdl_k3w0/7301.mp4".

Definition ydl_no_ffmpeg : ydl_opts -> pystr -> bool -> world -> world * outcome :=
  fun o _ dl w =>
    if dl then
      match merge_output_format o with
      | Some _ => (w, Raised)
      | None =>
          ({| files := sample_file :: files w; dirs := dirs w; now := now w + 3 |},
           Returned
             {| r_info :=
                  {| i_title := Some (py "clip"); i_id := Some (py "7301");
                     i_ext := ExtBound (Some (py "mp4"));
                     i_width := None; i_height := None; i_duration := None;
                     i_url := None; i_requested_formats := None;
                     i_formats := None;
                     i_requested_downloads :=
                       Some [{| filepath := Some sample_file |}] |};
                r_entries := None |})
      end
    else
      (w, Returned {| r_info := mk_info None None (Some sample_heights);
                      r_entries := None |}).

Definition mkdtemp_fixed : world -> pystr := fun _ => sample_tmpdir.

Definition sample_world (t : Q) : world :=
  {| files := []; dirs := [py "/tmp"]; now := t |}.

(** A state whose cache row for [sample_url], stored at time 0, has expired
    at time 601. *)
Definition sample_state_expired : state :=
  {| st_cache := cache_set sample_url sample_metadata 0 ∅;
     st_world := sample_world 601;
     st_trace := [] |}.

Definition sample_state (t : Q) : state :=
  {| st_cache := ∅; st_world := sample_world t; st_trace := [] |}.

(** No MP4/AVC descriptor: a VP9 one with a URL, a taller HEVC one
    without. *)
Definition sample_no_avc : list format :=
  [mk_format (Some (py "webm")) (Some (py "vp9")) (Some 720)
             (Some (py "https://v.example/vp9"));
   mk_format (Some (py "mp4")) (Some (py "hev1")) (Some 1080) None].

(** The extractor runs in a trace, counted. *)
Definition is_extract (e : event) : bool :=
  match e with
  | EvExtract _ _ _ => true
  | _ => false
  end.

Definition extractor_runs (tr : list event) : nat :=
  length (List.filter is_extract tr).

(** A world with the downloaded file in the temporary directory. *)
Definition sample_world_file : world :=
  {| files := [sample_file]; dirs := [sample_tmpdir; py "/tmp"]; now := 103 |}.

(** The doubles 0.1 and 600.1. *)
Definition double_0_1 : Q := 3602879701896397 # 36028797018963968.
Definition double_600_1 : Q := 5278535422627021 # 8796093022208.

(** ** The order on sort keys *)

Lemma key_ltb_lt a b : key_ltb a b = true <-> key_lt a b.
Proof.
  destruct a as [[h1 r1] t1], b as [[h2 r2] t2]; unfold key_lt, key_ltb; simpl.
  destruct (Qcompare_spec h1 h2) as [Hh|Hh|Hh];
    destruct (Qcompare_spec r1 r2) as [Hr|Hr|Hr];
    destruct (Qcompare_spec t1 t2) as [Ht|Ht|Ht];
    split; intros H; try discriminate; try reflexivity; try lra;
    try (right; split; [lra|]; try (left; lra); right; split; lra);
    try (left; lra);
    exfalso; lra.
Qed.

Lemma key_ltb_false a b : key_ltb a b = false <-> key_le b a.
Proof.
  unfold key_le. rewrite <- key_ltb_lt. destruct (key_ltb a b); intuition congruence.
Qed.

Lemma key_lt_irrefl a : ~ key_lt a a.
Proof. unfold key_lt. lra. Qed.

Lemma key_lt_asym a b : key_lt a b -> key_le a b.
Proof. unfold key_le, key_lt. lra. Qed.

Lemma key_le_refl a : key_le a a.
Proof. apply key_lt_irrefl. Qed.

Lemma key_le_trans a b c : key_le a b -> key_le b c -> key_le a c.
Proof. unfold key_le, key_lt. lra. Qed.

Lemma key_lt_le_trans a b c : key_lt a b -> key_le b c -> key_lt a c.
Proof. unfold key_le, key_lt. lra. Qed.

Lemma key_le_total a b : key_le a b \/ key_le b a.
Proof. unfold key_le, key_lt. lra. Qed.

(** ** The sort: a permutation, descending, and its head *)

Lemma insert_desc_perm x l : insert_desc x l ≡ₚ x :: l.
Proof.
  induction l as [|y l IH]; simpl; [reflexivity|].
  destruct (key_ltb (sort_key x) (sort_key y)); [|reflexivity].
  rewrite IH. apply Permutation_swap.
Qed.

Lemma sort_desc_perm l : sort_desc l ≡ₚ l.
Proof.
  induction l as [|x l IH]; simpl; [reflexivity|].
  rewrite insert_desc_perm, IH. reflexivity.
Qed.

Lemma sort_desc_nil l : sort_desc l = [] -> l = [].
Proof.
  intros H. apply Permutation_nil_r. rewrite <- H. symmetry. apply sort_desc_perm.
Qed.

Lemma insert_desc_descending x l : descending l -> descending (insert_desc x l).
Proof.
  unfold descending. induction 1 as [|y l Hl IH Hy]; simpl.
  - repeat constructor.
  - destruct (key_ltb (sort_key x) (sort_key y)) eqn:E.
    + constructor; [exact IH|].
      destruct Hy as [|z l' Hz]; simpl.
      * constructor. apply key_lt_asym. by apply key_ltb_lt.
      * destruct (key_ltb (sort_key x) (sort_key z)); constructor;
          [exact Hz | apply key_lt_asym; by apply key_ltb_lt].
    + constructor; [by constructor|]. constructor. by apply key_ltb_false.
Qed.

Lemma sort_desc_descending l : descending (sort_desc l).
Proof.
  induction l as [|x l IH]; simpl; [constructor|].
  by apply insert_desc_descending.
Qed.

Lemma sort_desc_head l best rest :
  sort_desc l = best :: rest -> is_first_max l best.
Proof.
  revert best rest. induction l as [|x l IH]; intros best rest; simpl; [done|].
  destruct (sort_desc l) as [|y ys] eqn:E; simpl.
  - intros [= <- <-]. apply sort_desc_nil in E as ->.
    exists [], []. split; [done|]. split; intros g Hg; by apply elem_of_nil in Hg.
  - destruct (IH y ys eq_refl) as (l1 & l2 & -> & H1 & H2).
    destruct (key_ltb (sort_key x) (sort_key y)) eqn:Hxy; intros [= <- <-].
    + exists (x :: l1), l2. split; [done|]. split; [|exact H2].
      intros g [->|Hg]%elem_of_cons; [by apply key_ltb_lt | by apply H1].
    + exists [], (l1 ++ y :: l2). split; [done|].
      apply key_ltb_false in Hxy.
      split; [intros g Hg; by apply elem_of_nil in Hg|].
      intros g Hg. apply key_le_trans with (sort_key y); [|exact Hxy].
      apply elem_of_app in Hg as [Hg|Hg]; [by apply key_lt_asym, H1|].
      apply elem_of_cons in Hg as [->|Hg]; [apply key_le_refl | by apply H2].
Qed.

Lemma is_first_max_unique l f g :
  is_first_max l f -> is_first_max l g -> f = g.
Proof.
  intros (l1 & l2 & -> & Hf1 & Hf2) (k1 & k2 & E & Hg1 & Hg2).
  revert k1 E Hf1 Hg1. induction l1 as [|a l1 IH]; intros [|b k1] E Hf1 Hg1;
    simpl in E.
  - by injection E.
  - injection E as -> ->. exfalso.
    apply (Hf2 g); [apply elem_of_app; right; left|].
    apply Hg1. left.
  - injection E as -> <-. exfalso.
    apply (Hg2 f); [apply elem_of_app; right; left|].
    apply Hf1. left.
  - injection E as -> E. apply (IH k1 E).
    + intros h Hh. apply Hf1. by right.
    + intros h Hh. apply Hg1. by right.
Qed.

Lemma is_first_max_sort l best :
  is_first_max l best <-> exists rest, sort_desc l = best :: rest.
Proof.
  split.
  - intros H. destruct (sort_desc l) as [|b rest] eqn:E.
    + apply sort_desc_nil in E as ->.
      destruct H as ([|??] & ? & ? & _); discriminate.
    + exists rest. f_equal. symmetry.
      eapply is_first_max_unique; [exact H|]. by eapply sort_desc_head.
  - intros [rest H]. by eapply sort_desc_head.
Qed.

Lemma is_first_max_elem l best : is_first_max l best -> best ∈ l.
Proof.
  intros (l1 & l2 & -> & _). apply elem_of_app. right. left.
Qed.

Lemma is_first_max_upper l best g :
  is_first_max l best -> g ∈ l -> key_le (sort_key g) (sort_key best).
Proof.
  intros (l1 & l2 & -> & H1 & H2) Hg.
  apply elem_of_app in Hg as [Hg|Hg]; [by apply key_lt_asym, H1|].
  apply elem_of_cons in Hg as [->|Hg]; [apply key_le_refl | by apply H2].
Qed.

Lemma is_first_max_exists l : l <> [] -> exists best, is_first_max l best.
Proof.
  intros Hl. destruct (sort_desc l) as [|b rest] eqn:E.
  - by apply sort_desc_nil in E.
  - exists b. by eapply sort_desc_head.
Qed.

(** ** Substrings and the two descriptor sets *)

Lemma startswith_app p s : startswith p s = true <-> exists t, s = p ++ t.
Proof.
  revert s. induction p as [|a p IH]; intros s; simpl.
  - split; [by exists s | done].
  - destruct s as [|b s]; [split; [done | by intros [? ?]]|].
    rewrite andb_true_iff, N.eqb_eq, IH. split.
    + intros [-> [t ->]]. by exists t.
    + intros [t [= -> ->]]. split; [done | by exists t].
Qed.

Lemma contains_substring needle hay :
  contains needle hay = true <-> substring needle hay.
Proof.
  unfold substring. induction hay as [|c hay IH]; simpl.
  - rewrite orb_false_r, startswith_app. split.
    + intros [t H]. by exists [], t.
    + intros (a & b & H). symmetry in H.
      apply app_eq_nil in H as [-> H]. apply app_eq_nil in H as [-> ->].
      by exists [].
  - rewrite orb_true_iff, startswith_app, IH. split.
    + intros [[t H]|(a & b & H)].
      * by exists [], t.
      * exists (c :: a), b. by rewrite H.
    + intros ([|c' a] & b & H); simpl in H.
      * left. by exists b.
      * right. injection H as <- H. by exists a, b.
Qed.

Lemma is_preferred_spec f :
  is_preferred f = true <->
  f_ext f = Some (py "mp4") /\
  exists v, f_vcodec f = Some v /\ substring (py "avc") v.
Proof.
  unfold is_preferred. rewrite andb_true_iff, bool_decide_eq_true.
  rewrite contains_substring. split; intros [He Hv]; (split; [exact He|]).
  - destruct (f_vcodec f) as [v|]; simpl in Hv; [by exists v|].
    destruct Hv as ([|??] & ? & ?); discriminate.
  - by destruct Hv as (v & -> & Hv).
Qed.

Lemma elem_of_preferred f fmts :
  f ∈ preferred fmts <-> f ∈ fmts /\ is_preferred f = true.
Proof. unfold preferred. rewrite !list_elem_of_In. apply filter_In. Qed.

Lemma elem_of_with_url f fmts :
  f ∈ with_url fmts <-> f ∈ fmts /\ truthy (f_url f) = true.
Proof. unfold with_url. rewrite !list_elem_of_In. apply filter_In. Qed.

Lemma truthy_spec x : truthy x = true <-> exists u, x = Some u /\ u <> [].
Proof.
  destruct x as [[|c u]|]; simpl.
  - split; [done | by intros (u & [= <-] & ?)].
  - split; [intros _; by exists (c :: u) | done].
  - split; [done | by intros (u & ? & _)].
Qed.

(** ** Rendition selection *)

Lemma select_from_formats_preferred d fmts best :
  is_first_max (preferred fmts) best ->
  select_from_formats d fmts = f_url best.
Proof.
  intros [rest H]%is_first_max_sort. unfold select_from_formats. by rewrite H.
Qed.

Lemma select_from_formats_fallback d fmts best :
  preferred fmts = [] ->
  is_first_max (with_url fmts) best ->
  select_from_formats d fmts = f_url best.
Proof.
  intros Hp [rest H]%is_first_max_sort. unfold select_from_formats.
  by rewrite Hp, H.
Qed.

Lemma select_from_formats_none d fmts :
  preferred fmts = [] -> with_url fmts = [] ->
  select_from_formats d fmts = d.
Proof. intros Hp Hu. unfold select_from_formats. by rewrite Hp, Hu. Qed.

Lemma select_direct_formats i fmts :
  truthy (first_requested i) = false ->
  truthy (i_url i) = false ->
  i_formats i = Some fmts ->
  select_direct i = select_from_formats (first_requested i) fmts.
Proof.
  intros H1 H2 Hf. unfold select_direct.
  assert (Hd : (if nonempty (i_requested_formats i) then first_requested i
                else None) = first_requested i).
  { unfold first_requested, nonempty.
    by destruct (i_requested_formats i) as [[|??]|]. }
  rewrite Hd, H1, H2, Hf. simpl. rewrite H1.
  by destruct fmts as [|f fs].
Qed.

(** C1, as amended.  The direct URL of the response is selected from the
    extraction result (its first entry, for a collection) in the order of
    lines 95-109: the first requested format's URL when it is non-empty;
    else the top-level URL when it is non-empty; else, over the format
    list, the URL of the first maximum by (height, fps, tbr) of the MP4/AVC
    descriptors, whatever that URL is; when there is no such descriptor,
    the URL of the first maximum of the descriptors with a non-empty URL;
    and when there is none either, what the first step left (no URL, or an
    empty one). *)
Theorem select_direct_order (r : result) :
  let i := first_entry r in
  let direct := m_direct_url (resolve r) in
  let d1 := first_requested i in
  (forall e es, r_entries r = Some (e :: es) -> i = e) /\
  (nonempty (r_entries r) = false -> i = r_info r) /\
  (forall v rest, i_requested_formats i = Some (v :: rest) -> d1 = f_url v) /\
  (nonempty (i_requested_formats i) = false -> d1 = None) /\
  (truthy d1 = true -> direct = d1) /\
  (truthy d1 = false -> truthy (i_url i) = true -> direct = i_url i) /\
  (truthy d1 = false -> truthy (i_url i) = false ->
   forall fmts, i_formats i = Some fmts ->
     (forall f, f ∈ preferred fmts <->
        f ∈ fmts /\ f_ext f = Some (py "mp4") /\
        exists v, f_vcodec f = Some v /\ substring (py "avc") v) /\
     (forall f, f ∈ with_url fmts <->
        f ∈ fmts /\ exists u, f_url f = Some u /\ u <> []) /\
     (forall best, is_first_max (preferred fmts) best ->
        direct = f_url best) /\
     (preferred fmts = [] ->
      forall best, is_first_max (with_url fmts) best ->
        direct = f_url best) /\
     (preferred fmts = [] -> with_url fmts = [] -> direct = d1)) /\
  (truthy d1 = false -> truthy (i_url i) = false -> i_formats i = None ->
   direct = d1).
Proof.
  intros i direct d1. change direct with (select_direct i). subst d1.
  clear direct.
  assert (Hd : (if nonempty (i_requested_formats i) then first_requested i
                else None) = first_requested i).
  { unfold first_requested, nonempty.
    by destruct (i_requested_formats i) as [[|??]|]. }
  split_and!.
  - subst i. unfold first_entry. by intros e es ->.
  - subst i. unfold first_entry, nonempty.
    by destruct (r_entries r) as [[|??]|].
  - unfold first_requested. by intros v rest ->.
  - unfold first_requested, nonempty.
    by destruct (i_requested_formats i) as [[|??]|].
  - intros H1. unfold select_direct. rewrite Hd, H1. simpl. by rewrite H1.
  - intros H1 H2. unfold select_direct. rewrite Hd, H1, H2. simpl.
    by rewrite H2.
  - intros H1 H2 fmts Hf.
    rewrite (select_direct_formats i fmts) by done.
    split_and!.
    + intros f. rewrite elem_of_preferred, is_preferred_spec. tauto.
    + intros f. rewrite elem_of_with_url, truthy_spec. tauto.
    + intros best Hb. by apply select_from_formats_preferred.
    + intros Hp best Hb. by apply select_from_formats_fallback.
    + intros Hp Hu. by apply select_from_formats_none.
  - intros H1 H2 Hf. unfold select_direct.
    rewrite Hd, H1, H2, Hf. simpl. by rewrite andb_false_r.
Qed.

Lemma select_direct_order_witness :
  m_direct_url sample_metadata = Some (py "https://v.example/1080").
Proof.
  destruct (select_direct_order
              {| r_info := mk_info None None (Some sample_heights);
                 r_entries := None |})
    as (_ & _ & _ & _ & _ & _ & H & _).
  destruct (H eq_refl eq_refl sample_heights eq_refl) as (_ & _ & Hbest & _).
  unfold sample_metadata.
  rewrite (Hbest (mk_format (Some (py "mp4")) (Some (py "avc1")) (Some 1080)
                            (Some (py "https://v.example/1080")))).
  - reflexivity.
  - apply is_first_max_sort. eexists. vm_compute. reflexivity.
Defined.

(** C1, as stated, fails: a non-empty "requested_formats" list whose first
    element has no URL does not decide the result; the top-level URL is
    used. *)
Lemma select_direct_requested_counterexample :
  exists v rest,
    i_requested_formats sample_requested_no_url = Some (v :: rest) /\
    f_url v = None /\
    select_direct sample_requested_no_url = Some (py "https://v.example/top") /\
    select_direct sample_requested_no_url <> f_url v.
Proof. eexists _, _. split; [reflexivity|]. by vm_compute. Qed.

(** C7 at its failing input.  The one descriptor of the list is MP4/AVC
    and its URL is the empty string.  The preferred branch, lines 101-104,
    passes [pref[0].get("url")] on as it is: the direct URL of the response
    is the empty string, which is not null, although no descriptor of the
    list has a non-empty URL.  The fallback branch, line 106, keeps the
    descriptors with [f.get("url")] only: the same descriptor under another
    codec is skipped there and the direct URL is null. *)
Theorem select_from_formats_empty_url :
  preferred sample_empty_url = sample_empty_url /\
  (forall f, f ∈ sample_empty_url -> f_url f = Some []) /\
  (forall f, f ∈ sample_empty_url -> truthy (f_url f) = false) /\
  select_from_formats None sample_empty_url = Some [] /\
  member "direct_url"
    (json_body (resolve {| r_info := mk_info None None (Some sample_empty_url);
                           r_entries := None |})) = Some (JStr []) /\
  preferred sample_empty_url_vp9 = [] /\
  with_url sample_empty_url_vp9 = [] /\
  select_from_formats None sample_empty_url_vp9 = None.
Proof.
  split_and!; try by vm_compute.
  - intros f Hf. by apply list_elem_of_singleton in Hf as ->.
  - intros f Hf. by apply list_elem_of_singleton in Hf as ->.
Qed.

(** C8.  When the first maximum of the MP4/AVC descriptors has no URL, the
    direct URL is null, whatever URLs the other descriptors have. *)
Theorem preferred_no_url_no_fallback (i : info) (fmts : list format)
    (best : format) :
  truthy (first_requested i) = false ->
  truthy (i_url i) = false ->
  i_formats i = Some fmts ->
  is_first_max (preferred fmts) best ->
  f_url best = None ->
  select_direct i = None.
Proof.
  intros H1 H2 Hf Hb Hu.
  rewrite (select_direct_formats i fmts) by done.
  by rewrite (select_from_formats_preferred _ _ best).
Qed.

Lemma preferred_no_url_no_fallback_witness :
  with_url sample_best_no_url <> [] /\
  select_direct (mk_info None None (Some sample_best_no_url)) = None.
Proof.
  split; [by vm_compute|].
  apply (preferred_no_url_no_fallback _ sample_best_no_url
           (mk_format (Some (py "mp4")) (Some (py "avc1.64001f")) (Some 1080)
                      None)).
  - reflexivity.
  - reflexivity.
  - reflexivity.
  - apply is_first_max_sort. eexists. vm_compute. reflexivity.
  - reflexivity.
Defined.

(** ** The response body *)

Lemma json_body_keys (m : metadata) :
  map fst (json_body m) =
  ["title"; "id"; "ext"; "width"; "height"; "duration"; "direct_url"]%string.
Proof. reflexivity. Qed.

Lemma json_body_ext (r : result) :
  member "ext" (json_body (resolve r)) =
  Some (jstr (get_ext (i_ext (first_entry r)))).
Proof. reflexivity. Qed.

Lemma json_body_ext_default (r : result) :
  i_ext (first_entry r) = ExtMissing ->
  member "ext" (json_body (resolve r)) = Some (JStr (py "mp4")).
Proof. intros H. by rewrite json_body_ext, H. Qed.

(** C6 at its failing input.  The body has the seven members, but with
    "ext" bound to [None] in the extraction result the default of
    [info.get("ext", "mp4")] is not used and "ext" is null. *)
Theorem json_body_ext_null :
  i_ext (first_entry sample_ext_none) = ExtBound None /\
  map fst (json_body (resolve sample_ext_none)) =
  ["title"; "id"; "ext"; "width"; "height"; "duration"; "direct_url"]%string /\
  member "ext" (json_body (resolve sample_ext_none)) = Some JNull.
Proof. by split_and!. Qed.

(** ** Binary64 rounding *)

Lemma pow2_pos e : 0 < 2 ^ e.
Proof. apply Qpower_0_lt. reflexivity. Qed.

Lemma pow2_add a b : 2 ^ (a + b) == 2 ^ a * 2 ^ b.
Proof. apply Qpower_plus. discriminate. Qed.

Lemma pow2_le a b : (a <= b)%Z -> 2 ^ a <= 2 ^ b.
Proof. intros H. apply Qpower_le_compat_l; [exact H | discriminate]. Qed.

Lemma pow2_Z n : (0 <= n)%Z -> 2 ^ n == inject_Z (2 ^ n).
Proof. intros H. symmetry. apply (Zpower_Qpower 2 n H). Qed.

Lemma pow2_succ a : 2 ^ (a + 1) == 2 * 2 ^ a.
Proof. rewrite pow2_add. change (2 ^ 1) with 2. ring. Qed.

(** [x / 2 ^ e], scaled back. *)
Lemma scale_back x e : x / 2 ^ e * 2 ^ e == x.
Proof. field. pose proof (pow2_pos e). lra. Qed.

Lemma scale_le x y e : x <= y -> x / 2 ^ e <= y / 2 ^ e.
Proof.
  intros H. pose proof (pow2_pos e) as Hp.
  apply Qmult_le_r with (z := 2 ^ e); [exact Hp|].
  rewrite !scale_back. exact H.
Qed.

(** [n / d] against a quotient of bounds. *)
Lemma frac_lt (n d A B : Q) :
  0 < B -> 0 < d -> 0 < n -> n < A -> B <= d -> n / d < A / B.
Proof.
  intros HB Hd Hn HnA HBd.
  apply Qlt_shift_div_r; [exact Hd|].
  setoid_replace (A / B * d) with (A * (d / B)) using relation Qeq by (field; lra).
  assert (H4 : 1 <= d / B) by (apply Qle_shift_div_l; lra).
  nra.
Qed.

Lemma frac_gt (n d A B : Q) :
  0 < A -> 0 < d -> A <= n -> d < B -> A / B < n / d.
Proof.
  intros HA Hd HAn HdB.
  apply Qlt_shift_div_l; [exact Hd|].
  setoid_replace (A / B * d) with (A * (d / B)) using relation Qeq by (field; lra).
  assert (H4 : d / B < 1) by (apply Qlt_shift_div_r; lra).
  assert (H5 : 0 < d / B) by (apply Qlt_shift_div_l; lra).
  nra.
Qed.

Lemma ilog2_spec x : 0 < x -> 2 ^ ilog2 x <= x /\ x < 2 ^ (ilog2 x + 1).
Proof.
  intros Hx. destruct x as [n d]. unfold ilog2. simpl Qnum. simpl Qden.
  assert (Hn : (0 < n)%Z).
  { unfold Qlt in Hx. simpl in Hx. lia. }
  pose proof (Z.log2_spec n Hn) as [Hn1 Hn2].
  pose proof (Z.log2_spec (Zpos d) (Pos2Z.is_pos d)) as [Hd1 Hd2].
  pose proof (Z.log2_nonneg n) as Ln.
  pose proof (Z.log2_nonneg (Zpos d)) as Ld.
  set (a := Z.log2 n) in *. set (b := Z.log2 (Zpos d)) in *.
  assert (Qn : 0 < inject_Z n) by (unfold Qlt; simpl; lia).
  assert (Qd : 0 < inject_Z (Zpos d)) by (unfold Qlt; simpl; lia).
  assert (Hupper : n # d < 2 ^ (a - b + 1)).
  { replace (a - b + 1)%Z with ((a + 1) + - b)%Z by lia.
    rewrite pow2_add, Qpower_opp, (Qmake_Qdiv n d).
    apply frac_lt; [apply pow2_pos | exact Qd | exact Qn | |].
    - rewrite (pow2_Z (a + 1)) by lia. rewrite <- Zlt_Qlt.
      replace (a + 1)%Z with (Z.succ a) by lia. exact Hn2.
    - rewrite (pow2_Z b) by lia. rewrite <- Zle_Qle. exact Hd1. }
  assert (Hlower : 2 ^ (a - b - 1) < n # d).
  { replace (a - b - 1)%Z with (a + - (b + 1))%Z by lia.
    rewrite pow2_add, Qpower_opp, (Qmake_Qdiv n d).
    apply frac_gt; [apply pow2_pos | exact Qd | |].
    - rewrite (pow2_Z a) by lia. rewrite <- Zle_Qle. exact Hn1.
    - rewrite (pow2_Z (b + 1)) by lia. rewrite <- Zlt_Qlt.
      replace (b + 1)%Z with (Z.succ b) by lia. exact Hd2. }
  destruct (Qle_bool (2 ^ (a - b)) (n # d)) eqn:E.
  - apply Qle_bool_iff in E. split; [exact E | exact Hupper].
  - split; [apply Qlt_le_weak; exact Hlower|].
    replace (a - b - 1 + 1)%Z with (a - b)%Z by lia.
    apply Qnot_le_lt. intros H. apply Qle_bool_iff in H. congruence.
Qed.


Lemma binade_min x : (emin <= binade x)%Z.
Proof. unfold binade. lia. Qed.

Lemma binade_upper x : 0 < x -> x < 2 ^ (binade x + prec).
Proof.
  intros Hx. destruct (ilog2_spec x Hx) as [_ H].
  eapply Qlt_le_trans; [exact H|]. apply pow2_le. unfold binade, prec. lia.
Qed.

Lemma binade_lower x :
  0 < x -> binade x = emin \/ 2 ^ (binade x + (prec - 1)) <= x.
Proof.
  intros Hx. destruct (ilog2_spec x Hx) as [H _]. unfold binade.
  destruct (Z.max_spec emin (ilog2 x - (prec - 1))) as [[_ ->]|[_ ->]].
  - right. replace (ilog2 x - (prec - 1) + (prec - 1))%Z with (ilog2 x) by lia.
    exact H.
  - by left.
Qed.

Lemma rne_floor y : (Qfloor y <= rne y <= Qfloor y + 1)%Z.
Proof.
  unfold rne. destruct (Qcompare (y - inject_Z (Qfloor y)) (1 # 2));
    [destruct (Z.even (Qfloor y))|..]; lia.
Qed.

Lemma rne_int y k : y == inject_Z k -> rne y = k.
Proof.
  intros H. unfold rne.
  assert (Hf : Qfloor y = k) by (rewrite (Qfloor_comp _ _ H); apply Qfloor_Z).
  rewrite Hf.
  assert (E : Qcompare (y - inject_Z k) (1 # 2) = Lt).
  { apply (proj1 (Qlt_alt _ _)). lra. }
  rewrite E. reflexivity.
Qed.

Lemma rne_down y k : inject_Z k <= y -> (k <= rne y)%Z.
Proof.
  intros H. apply Qfloor_resp_le in H. rewrite Qfloor_Z in H.
  pose proof (rne_floor y). lia.
Qed.

Lemma rne_up y k : y <= inject_Z k -> (rne y <= k)%Z.
Proof.
  intros H. pose proof (Qfloor_resp_le _ _ H) as Hf. rewrite Qfloor_Z in Hf.
  destruct (Z.eq_dec (Qfloor y) k) as [E|E].
  - assert (Hy : y == inject_Z k).
    { apply Qle_antisym; [exact H|]. rewrite <- E. apply Qfloor_le. }
    rewrite (rne_int y k Hy). lia.
  - pose proof (rne_floor y). lia.
Qed.

Lemma is_float_eq f g : f == g -> is_float f -> is_float g.
Proof.
  intros E (m & e & He & Hm & Hf). exists m, e. split_and!; [done..|].
  by rewrite <- E.
Qed.

Lemma is_float_opp f : is_float f -> is_float (- f).
Proof.
  intros (m & e & He & Hm & Hf). exists (- m)%Z, e.
  split_and!; [done | lia |]. rewrite Hf, inject_Z_opp. ring.
Qed.

(** A float is at most [2 ^ (e + prec)] for its exponent [e]. *)
Lemma float_bound m e : (Z.abs m <= 2 ^ prec)%Z ->
  inject_Z m * 2 ^ e <= 2 ^ (e + prec).
Proof.
  intros Hm. rewrite pow2_add, (pow2_Z prec) by done.
  assert (H : inject_Z m <= inject_Z (2 ^ prec)) by (rewrite <- Zle_Qle; lia).
  pose proof (pow2_pos e). revert H. generalize (inject_Z m), (inject_Z (2 ^ prec)).
  intros a b H'. nra.
Qed.

(** A float with an exponent of at least [e] is an integer multiple of
    [2 ^ e]. *)
Lemma float_multiple m et e : (e <= et)%Z ->
  inject_Z m * 2 ^ et == inject_Z (m * 2 ^ (et - e)) * 2 ^ e.
Proof.
  intros H. replace et with ((et - e) + e)%Z at 1 by lia.
  rewrite pow2_add, (pow2_Z (et - e)), inject_Z_mult by lia. ring.
Qed.

Lemma round_pos_lower x t :
  0 < x -> is_float t -> t <= x -> t <= round_pos x.
Proof.
  intros Hx (m & et & Het & Hm & Ht) Htx. unfold round_pos.
  set (e := binade x). pose proof (pow2_pos e) as Hp.
  destruct (Z_le_gt_dec e et) as [Hle|Hgt].
  - rewrite (float_multiple m et e Hle) in Ht.
    assert (Hk : inject_Z (m * 2 ^ (et - e)) <= x / 2 ^ e).
    { apply Qle_shift_div_l; [exact Hp|]. by rewrite <- Ht. }
    apply rne_down in Hk. rewrite Ht. apply Qmult_le_compat_r; [|lra].
    by rewrite <- Zle_Qle.
  - destruct (binade_lower x Hx) as [E|Hlow]; [fold e in E; lia|].
    fold e in Hlow.
    assert (Hk : inject_Z (2 ^ (prec - 1)) <= x / 2 ^ e).
    { apply Qle_shift_div_l; [exact Hp|].
      rewrite <- (pow2_Z (prec - 1)), <- pow2_add by done.
      by rewrite Z.add_comm. }
    apply rne_down in Hk.
    apply Qle_trans with (2 ^ (e + (prec - 1))).
    + rewrite Ht. eapply Qle_trans; [by apply float_bound|].
      apply pow2_le. lia.
    + rewrite (Z.add_comm e), pow2_add, (pow2_Z (prec - 1)) by done.
      apply Qmult_le_compat_r; [|lra]. by rewrite <- Zle_Qle.
Qed.

Lemma round_pos_upper x t :
  0 < x -> is_float t -> x <= t -> round_pos x <= t.
Proof.
  intros Hx (m & et & Het & Hm & Ht) Htx. unfold round_pos.
  set (e := binade x). pose proof (pow2_pos e) as Hp.
  destruct (Z_le_gt_dec e et) as [Hle|Hgt].
  - rewrite (float_multiple m et e Hle) in Ht.
    assert (Hk : x / 2 ^ e <= inject_Z (m * 2 ^ (et - e))).
    { apply Qle_shift_div_r; [exact Hp|]. by rewrite <- Ht. }
    apply rne_up in Hk. rewrite Ht. apply Qmult_le_compat_r; [|lra].
    by rewrite <- Zle_Qle.
  - destruct (binade_lower x Hx) as [E|Hlow]; [fold e in E; lia|].
    fold e in Hlow.
    assert (Hb : t <= 2 ^ (e + (prec - 1))).
    { rewrite Ht. eapply Qle_trans; [by apply float_bound|].
      apply pow2_le. lia. }
    assert (Hk : x / 2 ^ e <= inject_Z (2 ^ (prec - 1))).
    { apply Qle_shift_div_r; [exact Hp|].
      rewrite <- (pow2_Z (prec - 1)), <- pow2_add by done.
      rewrite Z.add_comm. lra. }
    apply rne_up in Hk.
    apply Qle_trans with (2 ^ (e + (prec - 1))); [|lra].
    rewrite (Z.add_comm e), pow2_add, (pow2_Z (prec - 1)) by done.
    apply Qmult_le_compat_r; [|lra]. by rewrite <- Zle_Qle.
Qed.

Lemma round_pos_float x : 0 < x -> is_float (round_pos x).
Proof.
  intros Hx. exists (rne (x / 2 ^ binade x)), (binade x).
  split_and!; [apply binade_min | | reflexivity].
  pose proof (pow2_pos (binade x)) as Hp.
  assert (H0 : inject_Z 0 <= x / 2 ^ binade x).
  { apply Qle_shift_div_l; [exact Hp|]. change (inject_Z 0) with 0. lra. }
  assert (H1 : x / 2 ^ binade x <= inject_Z (2 ^ prec)).
  { apply Qle_shift_div_r; [exact Hp|].
    rewrite <- (pow2_Z prec), <- pow2_add by done.
    rewrite Z.add_comm. apply Qlt_le_weak. by apply binade_upper. }
  apply rne_down in H0. apply rne_up in H1. lia.
Qed.

Lemma round64_cases x :
  (x == 0 /\ round64 x = 0) \/
  (0 < x /\ round64 x == round_pos x) \/
  (x < 0 /\ round64 x == - round_pos (- x)).
Proof.
  unfold round64. destruct (Qcompare_spec x 0) as [H|H|H].
  - by left.
  - right. right. split; [done | apply Qred_correct].
  - right. left. split; [done | apply Qred_correct].
Qed.

Lemma is_float_0 : is_float 0.
Proof. exists 0%Z, 0%Z. split_and!; try done. Qed.

(** The sum as the machine computes it. *)
Theorem round64_float x : is_float (round64 x).
Proof.
  destruct (round64_cases x) as [[_ ->]|[[Hx E]|[Hx E]]].
  - apply is_float_0.
  - eapply is_float_eq; [symmetry; exact E|]. by apply round_pos_float.
  - eapply is_float_eq; [symmetry; exact E|]. apply is_float_opp.
    apply round_pos_float. lra.
Qed.

Theorem round64_lower x t : is_float t -> t <= x -> t <= round64 x.
Proof.
  intros Ht Htx. destruct (round64_cases x) as [[H ->]|[[Hx ->]|[Hx ->]]].
  - lra.
  - by apply round_pos_lower.
  - assert (H : round_pos (- x) <= - t).
    { apply round_pos_upper; [lra | by apply is_float_opp | lra]. }
    lra.
Qed.

Theorem round64_upper x t : is_float t -> x <= t -> round64 x <= t.
Proof.
  intros Ht Htx. destruct (round64_cases x) as [[H ->]|[[Hx ->]|[Hx ->]]].
  - lra.
  - by apply round_pos_upper.
  - assert (H : - t <= round_pos (- x)).
    { apply round_pos_lower; [lra | by apply is_float_opp | lra]. }
    lra.
Qed.

Theorem round64_id t : is_float t -> round64 t == t.
Proof.
  intros Ht. apply Qle_antisym.
  - apply round64_upper; [done | lra].
  - apply round64_lower; [done | lra].
Qed.

Lemma rne_nearest y k :
  Qabs (inject_Z (rne y) - y) <= Qabs (inject_Z k - y).
Proof.
  pose proof (Qfloor_le y) as Hf1. pose proof (Qlt_floor y) as Hf2.
  rewrite inject_Z_plus in Hf2. change (inject_Z 1) with 1 in Hf2.
  assert (Hk : inject_Z k <= inject_Z (Qfloor y) \/
               inject_Z (Qfloor y) + 1 <= inject_Z k).
  { destruct (Z_le_gt_dec k (Qfloor y)) as [H|H].
    - left. by rewrite <- Zle_Qle.
    - right. change 1 with (inject_Z 1). rewrite <- inject_Z_plus, <- Zle_Qle. lia. }
  assert (Hr : inject_Z (rne y) = inject_Z (Qfloor y) /\
                 y - inject_Z (Qfloor y) <= 1 # 2 \/
               inject_Z (rne y) = inject_Z (Qfloor y) + 1 /\
                 1 # 2 <= y - inject_Z (Qfloor y)).
  { unfold rne.
    destruct (Qcompare_spec (y - inject_Z (Qfloor y)) (1 # 2)) as [H|H|H].
    - destruct (Z.even (Qfloor y)).
      + left. split; [done | lra].
      + right. rewrite inject_Z_plus. split; [done | lra].
    - left. split; [done | lra].
    - right. rewrite inject_Z_plus. split; [done | lra]. }
  revert Hf1 Hf2 Hk Hr.
  generalize (inject_Z (rne y)), (inject_Z k), (inject_Z (Qfloor y)).
  intros R K F Hf1 Hf2 Hk Hr.
  apply Qabs_Qle_condition.
  pose proof (Qle_Qabs (K - y)) as H1.
  pose proof (Qle_Qabs (- (K - y))) as H2. rewrite Qabs_opp in H2.
  destruct Hr as [[-> Hr]|[-> Hr]]; destruct Hk as [Hk|Hk]; split; lra.
Qed.

Lemma round_pos_nearest_multiple x k :
  Qabs (round_pos x - x) <= Qabs (inject_Z k * 2 ^ binade x - x).
Proof.
  unfold round_pos. set (e := binade x). pose proof (pow2_pos e) as Hp.
  pose proof (rne_nearest (x / 2 ^ e) k) as H.
  assert (E1 : inject_Z (rne (x / 2 ^ e)) * 2 ^ e - x ==
               (inject_Z (rne (x / 2 ^ e)) - x / 2 ^ e) * 2 ^ e)
    by (field; lra).
  assert (E2 : inject_Z k * 2 ^ e - x == (inject_Z k - x / 2 ^ e) * 2 ^ e)
    by (field; lra).
  rewrite E1, E2, !Qabs_Qmult, (Qabs_pos (2 ^ e)) by lra.
  apply Qmult_le_compat_r; [exact H | lra].
Qed.

Lemma round_pos_nearest x t :
  0 < x -> is_float t -> Qabs (round_pos x - x) <= Qabs (t - x).
Proof.
  intros Hx (m & et & Het & Hm & Ht).
  destruct (Z_le_gt_dec (binade x) et) as [Hle|Hgt].
  - rewrite Ht, (float_multiple m et (binade x) Hle).
    apply round_pos_nearest_multiple.
  - destruct (binade_lower x Hx) as [E|Hlow]; [lia|].
    assert (Hb : t <= 2 ^ (binade x + (prec - 1))).
    { rewrite Ht. eapply Qle_trans; [by apply float_bound|].
      apply pow2_le. lia. }
    eapply Qle_trans; [apply (round_pos_nearest_multiple x (2 ^ (prec - 1)))|].
    rewrite <- (pow2_Z (prec - 1)), <- pow2_add, Z.add_comm by done.
    rewrite (Qabs_neg (t - x)) by lra.
    rewrite Qabs_neg by lra. lra.
Qed.

(** [round64 x] is a float nearest to [x]. *)
Theorem round64_nearest x t :
  is_float t -> Qabs (round64 x - x) <= Qabs (t - x).
Proof.
  intros Ht. destruct (round64_cases x) as [[H ->]|[[Hx ->]|[Hx ->]]].
  - rewrite H. setoid_replace (0 - 0) with 0 using relation Qeq by ring.
    apply Qabs_nonneg.
  - by apply round_pos_nearest.
  - pose proof (round_pos_nearest (- x) (- t)) as H.
    setoid_replace (- round_pos (- x) - x) with (- (round_pos (- x) - - x))
      using relation Qeq by ring.
    setoid_replace (t - x) with (- (- t - - x)) using relation Qeq by ring.
    rewrite !Qabs_opp. apply H; [lra | by apply is_float_opp].
Qed.

(** The literals 0.1 and 600.1 denote [double_0_1] and [double_600_1], and
    the machine's addition of doubles, on three sums, is [float_add]. *)
Example float_add_machine :
  Q_of_float Literal.f_0_1 = Some double_0_1 /\
  Q_of_float Literal.f_600_1 = Some double_600_1 /\
  Q_of_float (double 3602879701896397 (-55)) = Some double_0_1 /\
  Q_of_float (PrimFloat.add (double 3602879701896397 (-55)) (double 600 0)) =
    Some (float_add double_0_1 600) /\
  Q_of_float (PrimFloat.add (double 7470000000000001 (-22)) (double 600 0)) =
    Some (float_add (7470000000000001 # 4194304) 600) /\
  Q_of_float (PrimFloat.add (double 1 (-1074)) (double 600 0)) =
    Some (float_add (inject_Z 1 * 2 ^ (-1074)) 600).
Proof. by vm_compute. Qed.

(** ** The cache *)

Lemma gtb_lt (a b : Q) : gtb a b = true <-> b < a.
Proof.
  unfold gtb. destruct (Qcompare_spec a b) as [H|H|H]; split; intros H';
    try done; exfalso; lra.
Qed.

Lemma gtb_le (a b : Q) : gtb a b = false <-> a <= b.
Proof.
  unfold gtb. destruct (Qcompare_spec a b) as [H|H|H]; split; intros H';
    try done; try lra.
Qed.

Section CacheFacts.
Context {V : Type}.
Implicit Types (c : gmap pystr (row V)) (r : row V).

Lemma cache_get_hit c url t r :
  c !! url = Some r -> t <= exp r -> cache_get url t c = (c, Some (val r)).
Proof.
  intros Hr Ht. unfold cache_get. rewrite Hr.
  apply gtb_le in Ht. by rewrite Ht.
Qed.

Lemma cache_get_expired c url t r :
  c !! url = Some r -> exp r < t -> cache_get url t c = (delete url c, None).
Proof.
  intros Hr Ht. unfold cache_get. rewrite Hr.
  apply gtb_lt in Ht. by rewrite Ht.
Qed.

Lemma cache_get_miss c url t :
  c !! url = None -> cache_get url t c = (c, None).
Proof. intros Hr. unfold cache_get. by rewrite Hr. Qed.

Lemma cache_get_served c url t c' v :
  cache_get url t c = (c', Some v) ->
  c' = c /\ exists r, c !! url = Some r /\ val r = v /\ t <= exp r.
Proof.
  unfold cache_get. destruct (c !! url) as [r|]; [|done].
  destruct (gtb t (exp r)) eqn:E; [done|].
  intros [= <- <-]. split; [done|]. exists r. by apply gtb_le in E.
Qed.

(** What a read leaves: the map itself, or the map without the expired
    row of that key. *)
Lemma cache_get_map c url t :
  (cache_get url t c).1 = c \/
  (exists r, c !! url = Some r /\ exp r < t /\
             (cache_get url t c).1 = delete url c).
Proof.
  unfold cache_get. destruct (c !! url) as [r|]; [|by left].
  destruct (gtb t (exp r)) eqn:E; [|by left].
  right. exists r. by apply gtb_lt in E.
Qed.

Lemma cache_get_other c url t k :
  k <> url -> (cache_get url t c).1 !! k = c !! k.
Proof.
  intros Hk. destruct (cache_get_map c url t) as [->|(r & _ & _ & ->)];
    [done|]. by rewrite lookup_delete_ne.
Qed.
End CacheFacts.

Lemma is_float_double m e :
  (emin <= e)%Z -> (Z.abs m <= 2 ^ prec)%Z -> is_float (inject_Z m * 2 ^ e).
Proof. intros He Hm. by exists m, e. Qed.

Lemma double_0_1_float : is_float double_0_1.
Proof.
  apply (is_float_eq (inject_Z 3602879701896397 * 2 ^ (-55))); [done|].
  by apply is_float_double.
Qed.

Lemma double_600_1_float : is_float double_600_1.
Proof.
  apply (is_float_eq (inject_Z 5278535422627021 * 2 ^ (-43))); [done|].
  by apply is_float_double.
Qed.

Lemma integer_float (n : Z) : (Z.abs n <= 2 ^ prec)%Z -> is_float (inject_Z n).
Proof.
  intros H. apply (is_float_eq (inject_Z n * 2 ^ 0)).
  - change (2 ^ 0) with 1. ring.
  - by apply is_float_double.
Qed.

(** A row written at [T] and read at [t]. *)
Lemma cache_set_get_hit {V : Type} (c : gmap pystr (row V)) (url : pystr)
    (v : V) (T t : Q) :
  t <= float_add T TTL_SECONDS ->
  cache_get url t (cache_set url v T c) = (cache_set url v T c, Some v).
Proof.
  intros Ht.
  by rewrite (cache_get_hit _ url t
                {| val := v; exp := float_add T TTL_SECONDS |})
    by (done || apply lookup_insert_eq).
Qed.

Lemma cache_set_get_late {V : Type} (c : gmap pystr (row V)) (url : pystr)
    (v : V) (T t : Q) :
  float_add T TTL_SECONDS < t ->
  cache_get url t (cache_set url v T c) =
  (delete url (cache_set url v T c), None).
Proof.
  intros Ht.
  by rewrite (cache_get_expired _ url t
                {| val := v; exp := float_add T TTL_SECONDS |})
    by (done || apply lookup_insert_eq).
Qed.

(** A clock value up to [T + 600] is up to the stored expiry. *)
Lemma float_add_covers (T t : Q) :
  is_float t -> t <= T + 600 -> t <= float_add T TTL_SECONDS.
Proof. intros Hf Ht. by apply round64_lower. Qed.

(** C5, as amended.  A value stored at clock value [T] gets the expiry
    [E], the binary64 sum of [T] and 600: a double nearest to [T + 600],
    with no double strictly between the two.  A lookup at any time up to
    [E], so at any clock value up to [T + 600], returns the value; a lookup
    at any time after [E], so at any clock value after [T + 600] other than
    [E] itself, returns nothing and drops the row; and no lookup returns a
    value after the expiry of its row. *)
Theorem cache_ttl {V : Type} (c : gmap pystr (row V)) (url : pystr) (v : V)
    (T t : Q) :
  let c1 := cache_set url v T c in
  let E := float_add T 600 in
  c1 !! url = Some {| val := v; exp := E |} /\
  (is_float E /\
   (forall f, is_float f -> f <= T + 600 -> f <= E) /\
   (forall f, is_float f -> T + 600 <= f -> E <= f) /\
   (forall f, is_float f ->
      Qabs (E - (T + 600)) <= Qabs (f - (T + 600)))) /\
  (t <= E -> cache_get url t c1 = (c1, Some v)) /\
  (is_float t -> t <= T + 600 -> cache_get url t c1 = (c1, Some v)) /\
  (E < t ->
   cache_get url t c1 = (delete url c1, None) /\ delete url c1 !! url = None) /\
  (is_float t -> T + 600 < t -> ~ t == E ->
   cache_get url t c1 = (delete url c1, None)) /\
  (forall c' v', cache_get url t c = (c', Some v') ->
   exists r, c !! url = Some r /\ val r = v' /\ t <= exp r).
Proof.
  intros c1 E. subst c1 E. split_and!.
  - apply lookup_insert_eq.
  - apply round64_float.
  - intros f Hf Hle. by apply round64_lower.
  - intros f Hf Hle. by apply round64_upper.
  - intros f Hf. by apply round64_nearest.
  - apply cache_set_get_hit.
  - intros Hf Ht. apply cache_set_get_hit. by apply float_add_covers.
  - intros Ht. split; [by apply cache_set_get_late | apply lookup_delete_eq].
  - intros Hf Ht Hne. apply cache_set_get_late.
    assert (Hle : float_add T 600 <= t).
    { apply round64_upper; [done | lra]. }
    destruct (Qlt_le_dec (float_add T 600) t) as [H|H]; [exact H|].
    destruct Hne. by apply Qle_antisym.
  - intros c' v' H. by apply cache_get_served in H as [_ ?].
Qed.

Lemma cache_ttl_witness :
  cache_get sample_url 1600 (cache_set sample_url sample_metadata 1000 ∅) =
  (cache_set sample_url sample_metadata 1000 ∅, Some sample_metadata) /\
  (cache_get sample_url 1601 (cache_set sample_url sample_metadata 1000 ∅)).2 =
  None.
Proof.
  destruct (cache_ttl ∅ sample_url sample_metadata 1000 1600)
    as (_ & _ & _ & H & _).
  destruct (cache_ttl ∅ sample_url sample_metadata 1000 1601)
    as (_ & _ & _ & _ & H' & _).
  split.
  - apply H; [by apply (integer_float 1600) | by vm_compute].
  - destruct H' as [-> _]; [by vm_compute | reflexivity].
Defined.

(** C5, as stated, fails: a row stored at the clock value 0.1 is served at
    the clock value 600.1, which is later than 0.1 + 600; the binary64 sum
    of 0.1 and 600 is 600.1. *)
Lemma cache_ttl_rounding_counterexample :
  is_float double_0_1 /\
  is_float double_600_1 /\
  double_0_1 + 600 < double_600_1 /\
  float_add double_0_1 600 = double_600_1 /\
  Q_of_float (PrimFloat.add (double 3602879701896397 (-55)) (double 600 0)) =
    Some double_600_1 /\
  cache_get sample_url double_600_1
    (cache_set sample_url sample_metadata double_0_1 ∅) =
  (cache_set sample_url sample_metadata double_0_1 ∅, Some sample_metadata).
Proof.
  split_and!.
  - apply double_0_1_float.
  - apply double_600_1_float.
  - by vm_compute.
  - by vm_compute.
  - by vm_compute.
  - apply cache_set_get_hit. by vm_compute.
Qed.

(** C9.  A read of an unexpired row returns its value and leaves the map,
    hence the row's expiry and value, as they were; so does any number of
    such reads. *)
Theorem cache_get_keeps_expiry {V : Type} (c : gmap pystr (row V))
    (url : pystr) (r : row V) (t : Q) (ts : list Q) :
  c !! url = Some r ->
  t <= exp r ->
  Forall (fun t' => t' <= exp r) ts ->
  cache_get url t c = (c, Some (val r)) /\
  read_many url ts c = c /\
  read_many url ts c !! url = Some r.
Proof.
  intros Hr Ht Hts. split; [by apply cache_get_hit|].
  assert (H : read_many url ts c = c).
  { induction Hts as [|t' ts Ht' _ IH]; simpl; [done|].
    by rewrite (cache_get_hit _ _ _ _ Hr Ht'). }
  by rewrite H.
Qed.

Lemma cache_get_keeps_expiry_witness :
  read_many sample_url [1001; 1300; 1600]
    (cache_set sample_url sample_metadata 1000 ∅) =
  cache_set sample_url sample_metadata 1000 ∅.
Proof.
  apply (cache_get_keeps_expiry _ sample_url
           {| val := sample_metadata; exp := float_add 1000 TTL_SECONDS |} 1000
           [1001; 1300; 1600]).
  - apply lookup_insert_eq.
  - by vm_compute.
  - repeat constructor; by vm_compute.
Defined.

(** ** File names *)

Lemma take_drop_while P s : s = take_while P s ++ drop_while P s.
Proof.
  induction s as [|c s IH]; simpl; [done|].
  destruct (P c); simpl; [by rewrite <- IH | done].
Qed.

Lemma take_while_all P s : Forall (fun c => P c = true) (take_while P s).
Proof.
  induction s as [|c s IH]; simpl; [constructor|].
  destruct (P c) eqn:E; by constructor.
Qed.

Lemma drop_while_head P s c t : drop_while P s = c :: t -> P c = false.
Proof.
  induction s as [|a s IH]; simpl; [done|].
  destruct (P a) eqn:E; [exact IH|]. by intros [= <- _].
Qed.

(** [strip] removes a run of white space at each end, and no more. *)
Lemma strip_spec s :
  exists pre suf,
    s = pre ++ strip s ++ suf /\
    Forall (fun c => is_space c = true) pre /\
    Forall (fun c => is_space c = true) suf /\
    (forall c t, strip s = c :: t -> is_space c = false) /\
    (forall c t, strip s = t ++ [c] -> is_space c = false).
Proof.
  set (m := drop_while is_space s).
  exists (take_while is_space s), (rev (take_while is_space (rev m))).
  assert (Hm : m = strip s ++ rev (take_while is_space (rev m))).
  { unfold strip. fold m. rewrite <- rev_app_distr, <- take_drop_while.
    by rewrite rev_involutive. }
  split_and!.
  - rewrite <- Hm. apply take_drop_while.
  - apply take_while_all.
  - apply Forall_rev. apply take_while_all.
  - intros c t Hc. rewrite Hc in Hm. simpl in Hm.
    by apply (drop_while_head is_space s c _ Hm).
  - intros c t Hc. unfold strip in Hc. fold m in Hc.
    apply (f_equal (@rev N)) in Hc. rewrite rev_involutive, rev_app_distr in Hc.
    by apply (drop_while_head is_space (rev m) c (rev t)).
Qed.

Lemma is_forbidden_spec c : is_forbidden c = true <-> c ∈ forbidden.
Proof.
  unfold is_forbidden. rewrite existsb_exists, list_elem_of_In. split.
  - by intros (x & Hx & ->%N.eqb_eq).
  - intros H. exists c. by rewrite N.eqb_refl.
Qed.

Lemma sub_forbidden_clean s c : c ∈ sub_forbidden s -> c ∉ forbidden.
Proof.
  unfold sub_forbidden. rewrite list_elem_of_In, in_map_iff.
  intros (x & <- & _). rewrite <- is_forbidden_spec.
  destruct (is_forbidden x) eqn:E; [by vm_compute | by rewrite E].
Qed.

Lemma sub_forbidden_pointwise s :
  Forall2 (fun c c' => c' = if is_forbidden c then underscore else c)
          s (sub_forbidden s).
Proof. induction s; simpl; by constructor. Qed.

Lemma elem_of_take_list {A : Type} (n : nat) (l : list A) (x : A) :
  x ∈ take n l -> x ∈ l.
Proof.
  revert n. induction l as [|a l IH]; intros [|n]; simpl; try done.
  - by intros ?%elem_of_nil.
  - intros [->|H]%elem_of_cons; [left | right; by eapply IH].
Qed.

(** C3, as amended.  [safe_filename] takes the name (the fallback "video"
    when the name is absent or empty), strips the white space at its two
    ends, replaces each remaining character of the forbidden class by an
    underscore, keeps at most 100 characters, uses "video" when nothing is
    left, and appends ".mp4". *)
Theorem safe_filename_spec (name : option pystr) :
  let given := str_or (default [] name) (py "video") in
  let core := strip given in
  (exists pre suf,
     given = pre ++ core ++ suf /\
     Forall (fun c => is_space c = true) pre /\
     Forall (fun c => is_space c = true) suf /\
     (forall c t, core = c :: t -> is_space c = false) /\
     (forall c t, core = t ++ [c] -> is_space c = false)) /\
  (forall c, is_forbidden c = true <-> c ∈ forbidden) /\
  Forall2 (fun c c' => c' = if is_forbidden c then underscore else c)
          core (sub_forbidden core) /\
  (exists base,
     safe_filename name = base ++ py ".mp4" /\
     base <> [] /\
     (length base <= 100)%nat /\
     (forall c, c ∈ base -> c ∉ forbidden) /\
     (core <> [] -> base = take 100 (sub_forbidden core)) /\
     (core = [] -> base = py "video")) /\
  safe_filename None = py "video.mp4" /\
  safe_filename (Some (py "My: Video? <Test>")) = py "My_ Video_ _Test_.mp4".
Proof.
  intros given core. split_and!.
  - apply strip_spec.
  - apply is_forbidden_spec.
  - apply sub_forbidden_pointwise.
  - exists (str_or (take 100 (sub_forbidden core)) (py "video")).
    split_and!.
    + reflexivity.
    + destruct (take 100 (sub_forbidden core)); simpl; [by vm_compute | done].
    + assert (Hlen : (length (take 100 (sub_forbidden core)) <= 100)%nat)
        by (rewrite length_take; lia).
      destruct (take 100 (sub_forbidden core)); [vm_compute; lia | exact Hlen].
    + assert (Hall : forall c, c ∈ take 100 (sub_forbidden core) ->
                               c ∉ forbidden).
      { intros c Hc. eapply sub_forbidden_clean. by eapply elem_of_take_list. }
      destruct (take 100 (sub_forbidden core)); [|exact Hall].
      simpl. apply Forall_forall. vm_compute.
      repeat constructor; by intros ?%is_forbidden_spec.
    + intros Hc. destruct core as [|c t]; [done|]. reflexivity.
    + by intros ->.
  - reflexivity.
  - by vm_compute.
Qed.

Lemma safe_filename_spec_witness :
  safe_filename (Some (py "  a/b: c  ")) = py "a_b_ c.mp4".
Proof.
  destruct (safe_filename_spec (Some (py "  a/b: c  ")))
    as (_ & _ & _ & (base & Hname & _ & _ & _ & Hbase & _) & _).
  rewrite Hname, Hbase; [reflexivity | discriminate].
Defined.

(** C3, as stated, fails: a tab at the start of the name is removed, not
    replaced by an underscore. *)
Lemma safe_filename_strip_counterexample :
  9%N ∈ [9; 65]%N /\
  9%N ∈ forbidden /\
  safe_filename (Some [9; 65]%N) = py "A.mp4" /\
  safe_filename (Some [9; 65]%N) <> py "_A.mp4".
Proof. split_and!; [left | by apply is_forbidden_spec | done | done]. Qed.

(** ** Running the handlers *)

Lemma new_events_app s s' evs :
  st_trace s' = st_trace s ++ evs -> new_events s s' = evs.
Proof. intros H. unfold new_events. rewrite H. apply drop_app_length. Qed.

Section HandlerFacts.
Variable ydl : ydl_opts -> pystr -> bool -> world -> world * outcome.
Variable mk : world -> pystr.

Lemma call_ydl_run o url dl s :
  call_ydl ydl o url dl s =
  ({| st_cache := st_cache s;
      st_world := (ydl o url dl (st_world s)).1;
      st_trace := st_trace s ++ [EvExtract o url dl] |},
   match (ydl o url dl (st_world s)).2 with
   | Raised => Raise ExtractorError
   | Returned r => Ret r
   end).
Proof.
  unfold call_ydl, bind, log, get_world, set_world, raise, ret. simpl.
  by destruct (ydl o url dl (st_world s)) as [w' [|r]].
Qed.

Lemma extract_info_run url s :
  extract_info ydl url s =
  ({| st_cache := st_cache s;
      st_world := (ydl YDL_BASE url false (st_world s)).1;
      st_trace := st_trace s ++ [EvExtract YDL_BASE url false] |},
   match (ydl YDL_BASE url false (st_world s)).2 with
   | Raised => Raise ExtractorError
   | Returned r => Ret (resolve r)
   end).
Proof.
  unfold extract_info, bind. rewrite call_ydl_run.
  by destruct (ydl YDL_BASE url false (st_world s)).2.
Qed.

Lemma cache_get_global_run url s :
  cache_get_global url s =
  ({| st_cache := (cache_get url (now (st_world s)) (st_cache s)).1;
      st_world := st_world s;
      st_trace := st_trace s ++ [EvCacheGet url] |},
   Ret (cache_get url (now (st_world s)) (st_cache s)).2).
Proof.
  unfold cache_get_global, bind, log, time_time, set_cache. simpl.
  by destruct (cache_get url (now (st_world s)) (st_cache s)).
Qed.

Lemma cache_set_global_run url v s :
  cache_set_global url v s =
  ({| st_cache := cache_set url v (now (st_world s)) (st_cache s);
      st_world := st_world s;
      st_trace := st_trace s ++ [EvCacheSet url] |},
   Ret tt).
Proof. reflexivity. Qed.

(** A cached value is returned without any other step. *)
Lemma api_tiktok_hit url s data :
  (cache_get url (now (st_world s)) (st_cache s)).2 = Some data ->
  api_tiktok ydl url s =
  ({| st_cache := st_cache s; st_world := st_world s;
      st_trace := st_trace s ++ [EvCacheGet url] |},
   Ret (JSONResponse data)).
Proof.
  intros H. unfold api_tiktok, bind. rewrite cache_get_global_run, H.
  destruct (cache_get url (now (st_world s)) (st_cache s)) as [c o] eqn:E.
  simpl in H. subst o. by apply cache_get_served in E as [-> _].
Qed.

(** On a miss with a failing extractor the request ends after the read. *)
Lemma api_tiktok_raise url s :
  (cache_get url (now (st_world s)) (st_cache s)).2 = None ->
  (ydl YDL_BASE url false (st_world s)).2 = Raised ->
  api_tiktok ydl url s =
  ({| st_cache := (cache_get url (now (st_world s)) (st_cache s)).1;
      st_world := (ydl YDL_BASE url false (st_world s)).1;
      st_trace := st_trace s ++ [EvCacheGet url; EvExtract YDL_BASE url false] |},
   Raise ExtractorError).
Proof.
  intros H Hy. unfold api_tiktok, bind.
  rewrite cache_get_global_run, H, extract_info_run. simpl.
  by rewrite Hy, <- app_assoc.
Qed.

Lemma api_tiktok_resolved url s r :
  (cache_get url (now (st_world s)) (st_cache s)).2 = None ->
  (ydl YDL_BASE url false (st_world s)).2 = Returned r ->
  api_tiktok ydl url s =
  ({| st_cache :=
        cache_set url (resolve r)
          (now (ydl YDL_BASE url false (st_world s)).1)
          (cache_get url (now (st_world s)) (st_cache s)).1;
      st_world := (ydl YDL_BASE url false (st_world s)).1;
      st_trace := st_trace s ++ [EvCacheGet url; EvExtract YDL_BASE url false;
                                 EvCacheSet url] |},
   Ret (JSONResponse (resolve r))).
Proof.
  intros H Hy. unfold api_tiktok, bind.
  rewrite cache_get_global_run, H, extract_info_run. simpl.
  rewrite Hy. unfold ret. by rewrite <- !app_assoc.
Qed.
End HandlerFacts.

(** C4, as amended.  A request to the metadata endpoint reads the cache
    once.  The read leaves the map as it was, or drops the expired row of
    that URL.  When the extractor raises, nothing is written: the map is the
    one the read left.  When it returns, the map is written once, for that
    URL, after the read and the extraction. *)
Theorem api_tiktok_cache_writes
    (ydl : ydl_opts -> pystr -> bool -> world -> world * outcome)
    (url : pystr) (s : state) :
  let w := st_world s in
  let read := cache_get url (now w) (st_cache s) in
  let s' := (api_tiktok ydl url s).1 in
  let out := (api_tiktok ydl url s).2 in
  (read.1 = st_cache s \/
   exists r, st_cache s !! url = Some r /\ exp r < now w /\
             read.1 = delete url (st_cache s)) /\
  (forall k, k <> url -> read.1 !! k = st_cache s !! k) /\
  (forall data, read.2 = Some data ->
   out = Ret (JSONResponse data) /\
   st_cache s' = st_cache s /\
   new_events s s' = [EvCacheGet url]) /\
  (read.2 = None -> (ydl YDL_BASE url false w).2 = Raised ->
   out = Raise ExtractorError /\
   st_cache s' = read.1 /\
   new_events s s' = [EvCacheGet url; EvExtract YDL_BASE url false]) /\
  (forall r, read.2 = None -> (ydl YDL_BASE url false w).2 = Returned r ->
   out = Ret (JSONResponse (resolve r)) /\
   st_cache s' =
     cache_set url (resolve r) (now (ydl YDL_BASE url false w).1) read.1 /\
   new_events s s' =
     [EvCacheGet url; EvExtract YDL_BASE url false; EvCacheSet url]).
Proof.
  intros w read s' out. subst w read s' out. split_and!.
  - apply cache_get_map.
  - intros k Hk. by apply cache_get_other.
  - intros data H. rewrite (api_tiktok_hit ydl url s data H). simpl.
    split_and!; [done..|]. by apply new_events_app.
  - intros H Hy. rewrite (api_tiktok_raise ydl url s H Hy). simpl.
    split_and!; [done..|]. by apply new_events_app.
  - intros r H Hy. rewrite (api_tiktok_resolved ydl url s r H Hy). simpl.
    split_and!; [done..|]. by apply new_events_app.
Qed.

Lemma api_tiktok_cache_writes_witness :
  (api_tiktok ydl_offline sample_url (sample_state 100)).2 =
    Raise ExtractorError /\
  st_cache (api_tiktok ydl_offline sample_url (sample_state 100)).1 = ∅ /\
  new_events (sample_state 100)
    (api_tiktok ydl_no_ffmpeg sample_url (sample_state 100)).1 =
  [EvCacheGet sample_url; EvExtract YDL_BASE sample_url false;
   EvCacheSet sample_url].
Proof.
  assert (Hmiss : (cache_get sample_url
                     (now (st_world (sample_state 100)))
                     (st_cache (sample_state 100))).2 = None).
  { exact (f_equal snd (cache_get_miss (V:=metadata) ∅ sample_url 100
                                       (lookup_empty sample_url))). }
  destruct (api_tiktok_cache_writes ydl_offline sample_url (sample_state 100))
    as (_ & _ & _ & Hraise & _).
  destruct (api_tiktok_cache_writes ydl_no_ffmpeg sample_url (sample_state 100))
    as (_ & _ & _ & _ & Hret).
  destruct (Hraise Hmiss eq_refl) as (Hout & Hcache & _).
  destruct (Hret _ Hmiss eq_refl) as (_ & _ & Hev).
  split_and!.
  - exact Hout.
  - rewrite Hcache.
    exact (f_equal fst (cache_get_miss (V:=metadata) ∅ sample_url 100
                                       (lookup_empty sample_url))).
  - exact Hev.
Defined.

(** C4, as stated, fails: with an expired row for the URL in the cache and
    a raising extractor, the request removes the row, so the cache entry of
    that URL and the map are not what they were. *)
Lemma api_tiktok_expired_row_counterexample :
  (api_tiktok ydl_offline sample_url sample_state_expired).2 =
    Raise ExtractorError /\
  st_cache sample_state_expired !! sample_url =
    Some {| val := sample_metadata; exp := float_add 0 TTL_SECONDS |} /\
  st_cache (api_tiktok ydl_offline sample_url sample_state_expired).1
    !! sample_url = None /\
  st_cache (api_tiktok ydl_offline sample_url sample_state_expired).1 <>
    st_cache sample_state_expired.
Proof.
  assert (Hrow : st_cache sample_state_expired !! sample_url =
                 Some {| val := sample_metadata; exp := float_add 0 TTL_SECONDS |})
    by apply lookup_insert_eq.
  assert (Hread : cache_get sample_url (now (st_world sample_state_expired))
                    (st_cache sample_state_expired) =
                  (delete sample_url (st_cache sample_state_expired), None)).
  { apply (cache_get_expired _ _ _ _ Hrow). by vm_compute. }
  assert (Hrun := api_tiktok_raise ydl_offline sample_url sample_state_expired).
  rewrite Hread in Hrun. specialize (Hrun eq_refl eq_refl).
  rewrite Hrun. cbn [fst snd st_cache]. split_and!.
  - done.
  - exact Hrow.
  - apply lookup_delete_eq.
  - intros Heq. apply (f_equal (fun c => c !! sample_url)) in Heq.
    rewrite lookup_delete_eq, Hrow in Heq. discriminate.
Qed.

(** ** The file system after [rmtree] *)

Lemma rmtree_isdir d w : isdir d (rmtree d w) = false.
Proof.
  unfold isdir, rmtree. simpl. apply bool_decide_eq_false.
  rewrite list_elem_of_In, filter_In. intros [_ H]. revert H.
  unfold under. by rewrite bool_decide_eq_true_2.
Qed.

Lemma rmtree_below d w p :
  startswith (d ++ [slash]) p = true -> path_exists p (rmtree d w) = false.
Proof.
  intros Hp. unfold path_exists, rmtree. simpl. apply orb_false_iff.
  split; apply bool_decide_eq_false; rewrite list_elem_of_In, filter_In;
    intros [_ H]; revert H; unfold under; rewrite Hp; [done|].
  by rewrite orb_true_r.
Qed.

(** ** The download materializer *)

Lemma path_join_nonempty a b : b <> [] -> path_join a b <> [].
Proof.
  intros Hb. unfold path_join.
  destruct (startswith [slash] b); [done|].
  destruct (bool_decide (a = []) || endswith [slash] a);
    by intros [_ ?]%app_eq_nil.
Qed.

Lemma ends_mp4_nonempty name : ends_mp4 name = true -> name <> [].
Proof. by intros H ->. Qed.

(** What [locate] finds is a non-empty path. *)
Lemma locate_truthy tmpdir w i :
  truthy (locate tmpdir w i) = false <-> locate tmpdir w i = None.
Proof.
  split; [|by intros ->].
  unfold locate. destruct (reported_exists w i) eqn:E.
  - unfold reported_exists in E.
    apply andb_true_iff in E as [E _]. apply andb_true_iff in E as [_ E].
    by rewrite E.
  - destruct (List.find ends_mp4 (listdir tmpdir w)) as [name|] eqn:F; [|done].
    apply find_some in F as [_ F]. apply ends_mp4_nonempty in F.
    apply (path_join_nonempty tmpdir) in F.
    by destruct (path_join tmpdir name).
Qed.

Lemma locate_none tmpdir w i :
  locate tmpdir w i = None <->
  reported_exists w i = false /\
  Forall (fun name => ends_mp4 name = false) (listdir tmpdir w).
Proof.
  unfold locate. destruct (reported_exists w i) eqn:E.
  - split; [|by intros [? _]]. intros H. unfold reported_exists in E.
    apply andb_true_iff in E as [E _]. apply andb_true_iff in E as [_ E].
    by rewrite H in E.
  - destruct (List.find ends_mp4 (listdir tmpdir w)) as [name|] eqn:F.
    + split; [done|]. intros [_ H]. apply find_some in F as [Hin F].
      rewrite Forall_forall in H. apply list_elem_of_In in Hin.
      by rewrite (H name Hin) in F.
    + split; [|done]. intros _. split; [done|]. apply Forall_forall.
      intros name Hin. apply list_elem_of_In in Hin.
      by apply (find_none _ _ F).
Qed.

Section MaterializerFacts.
Variable ydl : ydl_opts -> pystr -> bool -> world -> world * outcome.
Variable mk : world -> pystr.

Lemma yield_fails url tmpdir o w :
  truthy (yield tmpdir (ydl o url true w)) = false <->
  strategy_fails ydl url tmpdir o w.
Proof.
  unfold yield, strategy_fails.
  destruct (ydl o url true w) as [w' [|r]]; simpl; [done|].
  apply locate_truthy.
Qed.

Lemma try_download_run url tmpdir o s :
  try_download ydl url tmpdir o s =
  ({| st_cache := st_cache s;
      st_world := (ydl o url true (st_world s)).1;
      st_trace := st_trace s ++ [EvExtract o url true] |},
   Ret (yield tmpdir (ydl o url true (st_world s)))).
Proof.
  unfold try_download, except_none, bind, yield. rewrite call_ydl_run.
  by destruct (ydl o url true (st_world s)) as [w' [|r]].
Qed.

Lemma yt_dlp_download_to_temp_run url hint s :
  let tmpdir := mk (st_world s) in
  let tmpl := path_join tmpdir (py "%(id)s.%(ext)s") in
  let w0 := {| files := files (st_world s);
               dirs := tmpdir :: dirs (st_world s);
               now := now (st_world s) |} in
  let ra := ydl (opts1 tmpl) url true w0 in
  let rb := ydl (opts2 tmpl) url true ra.1 in
  let pa := yield tmpdir ra in
  let evs := if truthy pa then [EvExtract (opts1 tmpl) url true]
             else [EvExtract (opts1 tmpl) url true;
                   EvExtract (opts2 tmpl) url true] in
  let w := if truthy pa then ra.1 else rb.1 in
  let path := if truthy pa then pa else yield tmpdir rb in
  yt_dlp_download_to_temp ydl mk url hint s =
  if negb (truthy path) || negb (path_exists (default [] path) w) then
    ({| st_cache := st_cache s; st_world := rmtree tmpdir w;
        st_trace := st_trace s ++ evs ++ [EvRmtree tmpdir] |},
     Raise download_failed)
  else
    ({| st_cache := st_cache s; st_world := w;
        st_trace := st_trace s ++ evs |},
     Ret (default [] path,
          safe_filename
            (py_or hint
               (Some (splitext_root (basename (default [] path))))))).
Proof.
  intros tmpdir tmpl w0 ra rb pa evs w path.
  unfold yt_dlp_download_to_temp, bind, mkdtemp, get_world, set_world, ret.
  simpl. fold tmpdir. fold tmpl. rewrite try_download_run. simpl.
  fold w0. fold ra. fold pa. subst evs w path.
  destruct (truthy pa) eqn:Ea.
  - simpl.
    destruct (negb (truthy pa) || negb (path_exists (default [] pa) ra.1))
      eqn:Ec; simpl.
    + unfold do_rmtree, bind, log, get_world, set_world, raise. simpl.
      by rewrite <- !app_assoc.
    + done.
  - rewrite try_download_run. simpl. fold rb.
    destruct (negb (truthy (yield tmpdir rb)) ||
              negb (path_exists (default [] (yield tmpdir rb)) rb.1))
      eqn:Ec; simpl.
    + unfold do_rmtree, bind, log, get_world, set_world, raise. simpl.
      by rewrite <- !app_assoc.
    + by rewrite <- !app_assoc.
Qed.
End MaterializerFacts.

(** C2.  The materializer runs strategy A (merge) first and once; it runs
    strategy B (single stream) once, after A, exactly when A raised or
    yielded no file; when both fail it raises the 400 error with the
    documented message; and whenever it raises, it raises that error after
    removing the temporary directory, below which no path is left. *)
Theorem materializer_order
    (ydl : ydl_opts -> pystr -> bool -> world -> world * outcome)
    (mk : world -> pystr) (url : pystr) (hint : option pystr) (s : state) :
  let tmpdir := mk (st_world s) in
  let tmpl := path_join tmpdir (py "%(id)s.%(ext)s") in
  let A := opts1 tmpl in
  let B := opts2 tmpl in
  let w0 := {| files := files (st_world s);
               dirs := tmpdir :: dirs (st_world s);
               now := now (st_world s) |} in
  let wA := (ydl A url true w0).1 in
  let s' := (yt_dlp_download_to_temp ydl mk url hint s).1 in
  let out := (yt_dlp_download_to_temp ydl mk url hint s).2 in
  let attempts := strategies (new_events s s') in
  (attempts = [A] \/ attempts = [A; B]) /\
  (attempts = [A; B] <-> strategy_fails ydl url tmpdir A w0) /\
  (strategy_fails ydl url tmpdir A w0 <->
   (ydl A url true w0).2 = Raised \/
   exists r, (ydl A url true w0).2 = Returned r /\
             reported_exists wA (r_info r) = false /\
             Forall (fun name => ends_mp4 name = false) (listdir tmpdir wA)) /\
  (strategy_fails ydl url tmpdir A w0 ->
   strategy_fails ydl url tmpdir B wA ->
   out = Raise download_failed) /\
  (forall e, out = Raise e ->
     e = HTTPException 400
           (py "Download failed (ffmpeg missing or unsupported format).") /\
     isdir tmpdir (st_world s') = false /\
     (forall p, startswith (tmpdir ++ [slash]) p = true ->
                path_exists p (st_world s') = false) /\
     last (new_events s s') = Some (EvRmtree tmpdir)).
Proof.
  intros tmpdir tmpl A B w0 wA s' out attempts.
  subst s' out attempts.
  rewrite (yt_dlp_download_to_temp_run ydl mk url hint s).
  fold tmpdir. fold tmpl. fold A. fold B. fold w0. fold wA.
  assert (Hfail : strategy_fails ydl url tmpdir A w0 <->
            (ydl A url true w0).2 = Raised \/
            exists r, (ydl A url true w0).2 = Returned r /\
                      reported_exists wA (r_info r) = false /\
                      Forall (fun name => ends_mp4 name = false)
                             (listdir tmpdir wA)).
  { unfold strategy_fails. subst wA.
    destruct (ydl A url true w0) as [w1 [|r]]; simpl.
    - split; [by left | done].
    - rewrite locate_none. split.
      + intros H. right. by exists r.
      + by intros [?|(r' & [= <-] & H)]. }
  revert Hfail.
  rewrite <- (yield_fails ydl url tmpdir A w0).
  rewrite <- (yield_fails ydl url tmpdir B wA).
  destruct (truthy (yield tmpdir (ydl A url true w0))) eqn:Ea; intros Hfail.
  - destruct (negb (truthy (yield tmpdir (ydl A url true w0))) ||
              negb (path_exists (default [] (yield tmpdir (ydl A url true w0)))
                      wA)) eqn:Ec; simpl.
    + rewrite (new_events_app s _ ([EvExtract A url true] ++ [EvRmtree tmpdir]))
        by done.
      split_and!; [by left | done | done | done |].
      intros e [= <-]. split_and!.
      * done.
      * apply rmtree_isdir.
      * intros p. apply rmtree_below.
      * done.
    + rewrite (new_events_app s _ [EvExtract A url true]) by done.
      split_and!; [by left | done | done | done | done].
  - destruct (negb (truthy (yield tmpdir (ydl B url true wA))) ||
              negb (path_exists (default [] (yield tmpdir (ydl B url true wA)))
                      (ydl B url true wA).1)) eqn:Ec; simpl.
    + rewrite (new_events_app s _
                 ([EvExtract A url true; EvExtract B url true] ++
                  [EvRmtree tmpdir])) by done.
      split_and!; [by right | done | done | done |].
      intros e [= <-]. split_and!.
      * done.
      * apply rmtree_isdir.
      * intros p. apply rmtree_below.
      * done.
    + rewrite (new_events_app s _
                 [EvExtract A url true; EvExtract B url true]) by done.
      split_and!; [by right | done | done | | done].
      intros _ Hb. rewrite Hb in Ec. discriminate.
Qed.

Lemma materializer_order_witness :
  (yt_dlp_download_to_temp ydl_offline mkdtemp_fixed sample_url None
     (sample_state 100)).2 = Raise download_failed.
Proof.
  destruct (materializer_order ydl_offline mkdtemp_fixed sample_url None
              (sample_state 100)) as (_ & _ & _ & H & _).
  apply H; exact I.
Defined.

(** Without ffmpeg the merge fails and the single stream is served under
    the name made from the hint. *)
Example materializer_fallback :
  (yt_dlp_download_to_temp ydl_no_ffmpeg mkdtemp_fixed sample_url
     (Some (py "clip: one")) (sample_state 100)).2 =
  Ret (sample_file, py "clip_ one.mp4").
Proof. by vm_compute. Qed.

(** ** The cache and the download endpoint *)

Lemma cache_frame_refl s : cache_frame s s.
Proof. split; [done|]. exists []. by rewrite app_nil_r. Qed.

Lemma cache_frame_trans s1 s2 s3 :
  cache_frame s1 s2 -> cache_frame s2 s3 -> cache_frame s1 s3.
Proof.
  intros [Hc1 (e1 & Ht1 & Hf1)] [Hc2 (e2 & Ht2 & Hf2)].
  split; [congruence|]. exists (e1 ++ e2).
  split; [by rewrite Ht2, Ht1, app_assoc | by apply Forall_app].
Qed.

Lemma cache_frame_step c w tr evs :
  Forall (fun e => is_cache_event e = false) evs ->
  forall w', cache_frame {| st_cache := c; st_world := w; st_trace := tr |}
                         {| st_cache := c; st_world := w'; st_trace := tr ++ evs |}.
Proof. intros H w'. split; [done|]. by exists evs. Qed.

Lemma cache_frame_world c w w' tr :
  cache_frame {| st_cache := c; st_world := w; st_trace := tr |}
              {| st_cache := c; st_world := w'; st_trace := tr |}.
Proof. split; [done|]. exists []. by rewrite app_nil_r. Qed.

Section DownloadFacts.
Variable ydl : ydl_opts -> pystr -> bool -> world -> world * outcome.
Variable mk : world -> pystr.

Lemma extract_info_frame url s : cache_frame s (extract_info ydl url s).1.
Proof.
  rewrite extract_info_run. destruct s as [c w tr]. simpl.
  apply cache_frame_step. by repeat constructor.
Qed.

Lemma materializer_frame url hint s :
  cache_frame s (yt_dlp_download_to_temp ydl mk url hint s).1.
Proof.
  rewrite yt_dlp_download_to_temp_run. destruct s as [c w tr].
  repeat match goal with
         | |- context [if ?b then _ else _] => destruct b
         end; simpl; apply cache_frame_step; by repeat constructor.
Qed.

Lemma cleanup_frame path s : cache_frame s (cleanup path s).1.
Proof.
  destruct s as [c w tr].
  unfold cleanup, bind, get_world, set_world, do_rmtree, log, ret. simpl.
  destruct (path_exists path w && isdir path w); simpl;
    [apply cache_frame_refl|].
  destruct (path_exists path w); simpl.
  - destruct (isdir (dirname path) (remove_file path w)); simpl.
    + apply cache_frame_step. by repeat constructor.
    + apply cache_frame_world.
  - destruct (isdir (dirname path) w); simpl.
    + apply cache_frame_step. by repeat constructor.
    + apply cache_frame_refl.
Qed.

Lemma extract_info_first url s :
  cache_frame s (extract_info ydl url s).1 /\
  st_trace (extract_info ydl url s).1 =
    st_trace s ++ [EvExtract YDL_BASE url false].
Proof. split; [apply extract_info_frame | by rewrite extract_info_run]. Qed.

Lemma api_tiktok_download_frame url s :
  cache_frame (extract_info ydl url s).1 (api_tiktok_download ydl mk url s).1.
Proof.
  unfold api_tiktok_download, bind.
  destruct (extract_info ydl url s) as [s1 [meta|e]]; simpl;
    [|apply cache_frame_refl].
  pose proof (materializer_frame url (py_or (m_title meta) (m_id meta)) s1)
    as H.
  destruct (yt_dlp_download_to_temp ydl mk url
              (py_or (m_title meta) (m_id meta)) s1) as [s2 [[p f]|e]];
    exact H.
Qed.

Lemma download_request_frame url s :
  cache_frame (extract_info ydl url s).1 (download_request ydl mk url s).1.
Proof.
  unfold download_request, bind.
  pose proof (api_tiktok_download_frame url s) as H.
  destruct (api_tiktok_download ydl mk url s) as [s1 [[data|p mt f]|e]];
    simpl in *; try exact H.
  pose proof (cleanup_frame p s1) as Hc.
  destruct (cleanup p s1) as [s2 [[]|e]]; simpl in *;
    by eapply cache_frame_trans.
Qed.

(** A computation that starts with the metadata extraction and then
    keeps to the frame. *)
Lemma frame_after_extract url s s' :
  cache_frame (extract_info ydl url s).1 s' ->
  st_cache s' = st_cache s /\
  head (new_events s s') = Some (EvExtract YDL_BASE url false) /\
  Forall (fun e => is_cache_event e = false) (new_events s s').
Proof.
  intros [Hc (evs & Ht & Hf)].
  destruct (extract_info_first url s) as [[Hc0 _] Ht0].
  rewrite Ht0, <- app_assoc in Ht.
  rewrite (new_events_app s s' _ Ht). split_and!.
  - congruence.
  - done.
  - by constructor.
Qed.
End DownloadFacts.

(** ** The download endpoint does not depend on the cache *)

Lemma cache_blind_ret {A : Type} (a : A) : cache_blind (ret a).
Proof. by intros s c. Qed.

Lemma cache_blind_raise {A : Type} (e : exn) : cache_blind (@raise A e).
Proof. by intros s c. Qed.

Lemma cache_blind_log e : cache_blind (log e).
Proof. by intros s c. Qed.

Lemma cache_blind_get_world : cache_blind get_world.
Proof. by intros s c. Qed.

Lemma cache_blind_set_world w : cache_blind (set_world w).
Proof. by intros s c. Qed.

Lemma cache_blind_bind {A B : Type} (m : M A) (k : A -> M B) :
  cache_blind m -> (forall a, cache_blind (k a)) -> cache_blind (bind m k).
Proof.
  intros Hm Hk s c. unfold bind. rewrite Hm.
  destruct (m s) as [s1 [a|e]]; simpl; [apply Hk | done].
Qed.

Lemma cache_blind_bind_world {B : Type} (k : world -> M B) :
  (forall w, cache_blind (k w)) -> cache_blind (bind get_world k).
Proof. intros Hk s c. unfold bind, get_world. simpl. apply Hk. Qed.

Lemma cache_blind_except_none {A : Type} (m : M (option A)) :
  cache_blind m -> cache_blind (except_none m).
Proof.
  intros Hm s c. unfold except_none. rewrite Hm.
  by destruct (m s) as [s1 [a|e]].
Qed.

Create HintDb blind.

#[local] Hint Resolve cache_blind_ret cache_blind_raise cache_blind_log
  cache_blind_set_world cache_blind_except_none : blind.

(** Goes through the binds and the case distinctions of a handler. *)
Ltac blind_steps :=
  repeat first
    [ apply cache_blind_bind_world; intros ?
    | apply cache_blind_bind; [|intros ?]
    | match goal with
      | |- cache_blind (match ?x with _ => _ end) => destruct x
      end
    | solve [auto with blind] ].

Section BlindFacts.
Variable ydl : ydl_opts -> pystr -> bool -> world -> world * outcome.
Variable mk : world -> pystr.

Lemma cache_blind_call_ydl o url dl : cache_blind (call_ydl ydl o url dl).
Proof. unfold call_ydl. blind_steps. Qed.

Lemma cache_blind_extract_info url : cache_blind (extract_info ydl url).
Proof.
  unfold extract_info. apply cache_blind_bind;
    [apply cache_blind_call_ydl | intros r; apply cache_blind_ret].
Qed.

Lemma cache_blind_mkdtemp : cache_blind (mkdtemp mk).
Proof. unfold mkdtemp. blind_steps. Qed.

Lemma cache_blind_do_rmtree d : cache_blind (do_rmtree d).
Proof. unfold do_rmtree. blind_steps. Qed.

Lemma cache_blind_try_download url tmpdir o :
  cache_blind (try_download ydl url tmpdir o).
Proof.
  unfold try_download. apply cache_blind_except_none.
  apply cache_blind_bind; [apply cache_blind_call_ydl | intros r].
  blind_steps.
Qed.

Lemma cache_blind_materializer url hint :
  cache_blind (yt_dlp_download_to_temp ydl mk url hint).
Proof.
  unfold yt_dlp_download_to_temp.
  apply cache_blind_bind; [apply cache_blind_mkdtemp | intros tmpdir].
  apply cache_blind_bind; [apply cache_blind_try_download | intros first].
  apply cache_blind_bind.
  { destruct (truthy first);
      [apply cache_blind_ret | apply cache_blind_try_download]. }
  intros path. apply cache_blind_bind_world. intros w.
  destruct (negb (truthy path) || negb (path_exists (default [] path) w)).
  - apply cache_blind_bind; [apply cache_blind_do_rmtree | intros _].
    apply cache_blind_raise.
  - apply cache_blind_ret.
Qed.

Lemma cache_blind_cleanup path : cache_blind (cleanup path).
Proof.
  unfold cleanup. apply cache_blind_bind_world. intros w.
  destruct (path_exists path w && isdir path w); [apply cache_blind_ret|].
  apply cache_blind_bind.
  { destruct (path_exists path w);
      [apply cache_blind_set_world | apply cache_blind_ret]. }
  intros _. apply cache_blind_bind_world. intros w'.
  destruct (isdir (dirname path) w');
    [apply cache_blind_do_rmtree | apply cache_blind_ret].
Qed.

Lemma cache_blind_api_tiktok_download url :
  cache_blind (api_tiktok_download ydl mk url).
Proof.
  unfold api_tiktok_download.
  apply cache_blind_bind; [apply cache_blind_extract_info | intros meta].
  apply cache_blind_bind; [apply cache_blind_materializer | intros [p f]].
  apply cache_blind_ret.
Qed.

Lemma cache_blind_download_request url :
  cache_blind (download_request ydl mk url).
Proof.
  unfold download_request.
  apply cache_blind_bind; [apply cache_blind_api_tiktok_download | intros resp].
  destruct resp as [data|p mt f]; [apply cache_blind_ret|].
  apply cache_blind_bind; [apply cache_blind_cleanup | intros _].
  apply cache_blind_ret.
Qed.
End BlindFacts.

(** C10.  A download request, the handler as well as the handler followed
    by its background task, leaves the cache map as it was; its first step
    is the metadata extraction, and none of its steps is a cache read or
    write; what it answers and what it does to the world are the same
    whatever the cache holds. *)
Theorem download_leaves_cache
    (ydl : ydl_opts -> pystr -> bool -> world -> world * outcome)
    (mk : world -> pystr) (url : pystr) (s : state) :
  let s1 := (api_tiktok_download ydl mk url s).1 in
  let s2 := (download_request ydl mk url s).1 in
  (st_cache s1 = st_cache s /\
   head (new_events s s1) = Some (EvExtract YDL_BASE url false) /\
   Forall (fun e => is_cache_event e = false) (new_events s s1)) /\
  (st_cache s2 = st_cache s /\
   head (new_events s s2) = Some (EvExtract YDL_BASE url false) /\
   Forall (fun e => is_cache_event e = false) (new_events s s2)) /\
  (forall c,
     api_tiktok_download ydl mk url (with_cache c s) =
       (with_cache c s1, (api_tiktok_download ydl mk url s).2) /\
     download_request ydl mk url (with_cache c s) =
       (with_cache c s2, (download_request ydl mk url s).2)).
Proof.
  intros s1 s2. split; [|split].
  - apply (frame_after_extract ydl url). apply api_tiktok_download_frame.
  - apply (frame_after_extract ydl url). apply download_request_frame.
  - intros c. split.
    + apply cache_blind_api_tiktok_download.
    + apply cache_blind_download_request.
Qed.

(** * Further properties of the code *)

(** ** The cache: overwriting, other keys, expired rows *)

(** X1.  [cache_set] replaces the row of its key: of two writes the later
    one decides value and expiry, so a lookup at a clock value up to 600
    seconds after the second write returns the second value, whenever the
    first was made. *)
Theorem cache_set_overwrites {V : Type} (c : gmap pystr (row V))
    (url : pystr) (v1 v2 : V) (T1 T2 t : Q) :
  is_float t ->
  t <= T2 + 600 ->
  cache_set url v2 T2 (cache_set url v1 T1 c) = cache_set url v2 T2 c /\
  (cache_get url t (cache_set url v2 T2 (cache_set url v1 T1 c))).2 = Some v2.
Proof.
  intros Hf Ht.
  assert (E : cache_set url v2 T2 (cache_set url v1 T1 c) =
              cache_set url v2 T2 c) by apply insert_insert_eq.
  split; [exact E|]. rewrite E.
  by rewrite cache_set_get_hit by (by apply float_add_covers).
Qed.

Lemma cache_set_overwrites_witness :
  (cache_get sample_url 2000
     (cache_set sample_url 2%nat 1500 (cache_set sample_url 1%nat 0 ∅))).2 =
  Some 2%nat.
Proof.
  apply (cache_set_overwrites ∅ sample_url 1%nat 2%nat 0 1500 2000).
  - by apply (integer_float 2000).
  - by vm_compute.
Defined.

(** What a lookup returns depends on the row of its key only. *)
Lemma cache_get_result {V : Type} (c c' : gmap pystr (row V)) (url : pystr)
    (t : Q) :
  c !! url = c' !! url -> (cache_get url t c).2 = (cache_get url t c').2.
Proof.
  intros H. unfold cache_get. rewrite H.
  destruct (c' !! url) as [r|]; [|done]. by destruct (gtb t (exp r)).
Qed.

(** X2.  A write or a read for one URL changes nothing for another URL:
    the other URL's row, and what a lookup of it returns at any time, are
    the same before and after. *)
Theorem cache_other_url {V : Type} (c : gmap pystr (row V))
    (url other : pystr) (v : V) (T t : Q) :
  other <> url ->
  cache_set url v T c !! other = c !! other /\
  (cache_get url T c).1 !! other = c !! other /\
  (cache_get other t (cache_set url v T c)).2 = (cache_get other t c).2 /\
  (cache_get other t (cache_get url T c).1).2 = (cache_get other t c).2.
Proof.
  intros Hne.
  assert (H1 : cache_set url v T c !! other = c !! other)
    by (by apply lookup_insert_ne).
  assert (H2 : (cache_get url T c).1 !! other = c !! other)
    by (by apply cache_get_other).
  split_and!; [done | done | |]; by apply cache_get_result.
Qed.

Lemma cache_other_url_witness :
  (cache_get (py "https://www.tiktok.com/@u/video/1") 50
     (cache_set sample_url 7%nat 10
        (cache_set (py "https://www.tiktok.com/@u/video/1") 3%nat 0 ∅))).2 =
  (cache_get (py "https://www.tiktok.com/@u/video/1") 50
     (cache_set (py "https://www.tiktok.com/@u/video/1") 3%nat 0 ∅)).2.
Proof.
  apply (cache_other_url _ sample_url (py "https://www.tiktok.com/@u/video/1")
           7%nat 10 50).
  by vm_compute.
Defined.

(** X3.  A row dropped by a late lookup stays dropped: after a lookup
    past the expiry, every further lookup of that URL, at whatever clock
    value, returns nothing and leaves the map as it is. *)
Theorem cache_get_expired_stays {V : Type} (c : gmap pystr (row V))
    (url : pystr) (r : row V) (t t' : Q) :
  c !! url = Some r ->
  exp r < t ->
  let c1 := (cache_get url t c).1 in
  c1 = delete url c /\
  cache_get url t' c1 = (c1, None).
Proof.
  intros Hr Ht c1. subst c1. rewrite (cache_get_expired c url t r Hr Ht).
  split; [done|]. apply cache_get_miss. apply lookup_delete_eq.
Qed.

Lemma cache_get_expired_stays_witness :
  (cache_get sample_url 5
     (cache_get sample_url 700 (cache_set sample_url 1%nat 0 ∅)).1).2 = None.
Proof.
  destruct (cache_get_expired_stays (cache_set sample_url 1%nat 0 ∅) sample_url
              {| val := 1%nat; exp := float_add 0 TTL_SECONDS |} 700 5)
    as [_ H].
  - apply lookup_insert_eq.
  - by vm_compute.
  - by rewrite H.
Defined.

(** ** The metadata endpoint *)

(** X4.  Whatever happens in a request for one URL (a hit, a failing
    extractor, a resolution), the cache rows of all other URLs are the
    same afterwards. *)
Theorem api_tiktok_other_urls
    (ydl : ydl_opts -> pystr -> bool -> world -> world * outcome)
    (url other : pystr) (s : state) :
  other <> url ->
  st_cache (api_tiktok ydl url s).1 !! other = st_cache s !! other.
Proof.
  intros Hne.
  destruct (cache_get url (now (st_world s)) (st_cache s)).2 as [data|] eqn:E.
  - by rewrite (api_tiktok_hit ydl url s data E).
  - destruct (ydl YDL_BASE url false (st_world s)).2 as [|r] eqn:Ey.
    + rewrite (api_tiktok_raise ydl url s E Ey). simpl.
      by apply cache_get_other.
    + rewrite (api_tiktok_resolved ydl url s r E Ey). simpl.
      unfold cache_set. rewrite lookup_insert_ne by done.
      by apply cache_get_other.
Qed.

Lemma api_tiktok_other_urls_witness :
  st_cache (api_tiktok ydl_no_ffmpeg (py "https://www.tiktok.com/@u/video/1")
              sample_state_expired).1 !! sample_url =
  st_cache sample_state_expired !! sample_url.
Proof.
  apply (api_tiktok_other_urls ydl_no_ffmpeg
           (py "https://www.tiktok.com/@u/video/1") sample_url).
  by vm_compute.
Defined.

(** X5.  After a request that resolved a URL, a request for the same URL
    in any state that still holds that row, with the clock at most 600
    seconds past the write, answers with the same metadata, reads the
    cache once, and runs no extractor, whatever the extractor would do. *)
Theorem api_tiktok_repeat
    (ydl ydl' : ydl_opts -> pystr -> bool -> world -> world * outcome)
    (url : pystr) (s s2 : state) (r : result) :
  (cache_get url (now (st_world s)) (st_cache s)).2 = None ->
  (ydl YDL_BASE url false (st_world s)).2 = Returned r ->
  let s1 := (api_tiktok ydl url s).1 in
  st_cache s2 !! url = st_cache s1 !! url ->
  is_float (now (st_world s2)) ->
  now (st_world s2) <= now (st_world s1) + 600 ->
  (api_tiktok ydl url s).2 = Ret (JSONResponse (resolve r)) /\
  api_tiktok ydl' url s2 =
    ({| st_cache := st_cache s2; st_world := st_world s2;
        st_trace := st_trace s2 ++ [EvCacheGet url] |},
     Ret (JSONResponse (resolve r))).
Proof.
  intros Hmiss Hret s1 Hrow Hf Hnow. subst s1.
  rewrite (api_tiktok_resolved ydl url s r Hmiss Hret) in *.
  cbn [fst snd st_cache st_world] in *.
  split; [done|].
  unfold cache_set in Hrow. rewrite lookup_insert_eq in Hrow.
  apply api_tiktok_hit.
  rewrite (cache_get_hit _ _ _ _ Hrow); [done|].
  by apply float_add_covers.
Qed.

Lemma api_tiktok_repeat_witness :
  (api_tiktok ydl_offline sample_url
     (api_tiktok ydl_no_ffmpeg sample_url (sample_state 100)).1).2 =
  Ret (JSONResponse sample_metadata).
Proof.
  destruct (api_tiktok_repeat ydl_no_ffmpeg ydl_offline sample_url
              (sample_state 100)
              (api_tiktok ydl_no_ffmpeg sample_url (sample_state 100)).1
              {| r_info := mk_info None None (Some sample_heights);
                 r_entries := None |}) as [_ H].
  - exact (f_equal snd (cache_get_miss (V:=metadata) ∅ sample_url 100
                                       (lookup_empty sample_url))).
  - reflexivity.
  - reflexivity.
  - rewrite (api_tiktok_resolved ydl_no_ffmpeg sample_url (sample_state 100)
               {| r_info := mk_info None None (Some sample_heights);
                  r_entries := None |}).
    + by apply (integer_float 100).
    + exact (f_equal snd (cache_get_miss (V:=metadata) ∅ sample_url 100
                                         (lookup_empty sample_url))).
    + reflexivity.
  - rewrite (api_tiktok_resolved ydl_no_ffmpeg sample_url (sample_state 100)
               {| r_info := mk_info None None (Some sample_heights);
                  r_entries := None |}).
    + by vm_compute.
    + exact (f_equal snd (cache_get_miss (V:=metadata) ∅ sample_url 100
                                         (lookup_empty sample_url))).
    + reflexivity.
  - by rewrite H.
Defined.

(** ** Rendition selection: what decides *)

Lemma filter_idem {A : Type} (f : A -> bool) (l : list A) :
  List.filter f (List.filter f l) = List.filter f l.
Proof.
  induction l as [|a l IH]; simpl; [done|].
  destruct (f a) eqn:E; simpl; [|done]. by rewrite E, IH.
Qed.

(** X6.  The "ext" member of the response is null exactly when the
    extraction result binds "ext" to [None]; it is "mp4" when the key is
    missing, and the bound string otherwise. *)
Theorem response_ext (r : result) :
  (member "ext" (json_body (resolve r)) = Some JNull <->
   i_ext (first_entry r) = ExtBound None) /\
  (i_ext (first_entry r) = ExtMissing ->
   member "ext" (json_body (resolve r)) = Some (JStr (py "mp4"))) /\
  (forall e, i_ext (first_entry r) = ExtBound (Some e) ->
   member "ext" (json_body (resolve r)) = Some (JStr e)).
Proof.
  rewrite json_body_ext. split_and!.
  - by destruct (i_ext (first_entry r)) as [|[e|]].
  - by intros ->.
  - by intros e ->.
Qed.

Lemma response_ext_witness :
  member "ext" (json_body sample_metadata) = Some (JStr (py "mp4")).
Proof.
  destruct (response_ext {| r_info := mk_info None None (Some sample_heights);
                            r_entries := None |}) as (_ & H & _).
  by apply H.
Defined.

(** X7.  Height decides first: an MP4/AVC descriptor strictly taller than
    every other MP4/AVC descriptor is the one selected from the list,
    wherever it stands and whatever the frame rates and bitrates are. *)
Theorem tallest_preferred_wins (d : option pystr) (fmts l1 l2 : list format)
    (best : format) :
  preferred fmts = l1 ++ best :: l2 ->
  (forall g, g ∈ l1 ++ l2 -> or0 (f_height g) < or0 (f_height best)) ->
  select_from_formats d fmts = f_url best.
Proof.
  intros Hp Htall. apply select_from_formats_preferred.
  exists l1, l2. split; [done|]. split.
  - intros g Hg. left. apply Htall. apply elem_of_app. by left.
  - intros g Hg. assert (H : or0 (f_height g) < or0 (f_height best)).
    { apply Htall. apply elem_of_app. by right. }
    unfold key_le, key_lt, sort_key. simpl. lra.
Qed.

Lemma tallest_preferred_wins_witness :
  select_from_formats None sample_heights = Some (py "https://v.example/1080").
Proof.
  apply (tallest_preferred_wins None sample_heights
           [mk_format (Some (py "mp4")) (Some (py "avc1")) (Some 480)
                      (Some (py "https://v.example/480"))]
           [mk_format (Some (py "mp4")) (Some (py "avc1")) (Some 720)
                      (Some (py "https://v.example/720"))]
           (mk_format (Some (py "mp4")) (Some (py "avc1")) (Some 1080)
                      (Some (py "https://v.example/1080")))).
  - reflexivity.
  - intros g Hg. apply list_elem_of_In in Hg.
    destruct Hg as [<-|[<-|[]]]; by vm_compute.
Defined.

(** X8.  As soon as the list holds an MP4/AVC descriptor, the other
    descriptors are without influence: two lists with the same MP4/AVC
    descriptors give the same URL, and that URL is read from an MP4/AVC
    descriptor, also when another descriptor is taller. *)
Theorem preferred_decides (d d' : option pystr) (fmts fmts' : list format) :
  preferred fmts <> [] ->
  preferred fmts' = preferred fmts ->
  select_from_formats d fmts = select_from_formats d' fmts' /\
  exists b, b ∈ fmts /\ is_preferred b = true /\
            select_from_formats d fmts = f_url b.
Proof.
  intros Hne Heq. unfold select_from_formats. rewrite Heq.
  destruct (sort_desc (preferred fmts)) as [|b rest] eqn:E.
  - by apply sort_desc_nil in E.
  - split; [done|]. exists b.
    apply sort_desc_head, is_first_max_elem, elem_of_preferred in E.
    by destruct E.
Qed.

Lemma preferred_decides_witness :
  select_from_formats None sample_heights =
  select_from_formats None (preferred sample_heights).
Proof.
  apply (preferred_decides None None sample_heights (preferred sample_heights)).
  - by vm_compute.
  - apply filter_idem.
Defined.

(** X9.  Without any MP4/AVC descriptor, the selection from the list
    yields a non-empty URL exactly when some descriptor has one. *)
Theorem fallback_finds_url (d : option pystr) (fmts : list format) :
  truthy d = false ->
  preferred fmts = [] ->
  truthy (select_from_formats d fmts) = true <->
  exists f, f ∈ fmts /\ truthy (f_url f) = true.
Proof.
  intros Hd Hp. unfold select_from_formats. rewrite Hp. simpl.
  destruct (sort_desc (with_url fmts)) as [|b rest] eqn:E.
  - apply sort_desc_nil in E. rewrite Hd. split; [done|].
    intros (f & Hf & Hu).
    assert (Hin : f ∈ with_url fmts) by (by apply elem_of_with_url).
    rewrite E in Hin. by apply elem_of_nil in Hin.
  - apply sort_desc_head, is_first_max_elem, elem_of_with_url in E.
    destruct E as [Hb Hu]. split; [|done]. intros _. by exists b.
Qed.

Lemma fallback_finds_url_witness :
  truthy (select_from_formats None sample_no_avc) = true.
Proof.
  apply (fallback_finds_url None sample_no_avc); [done | done |].
  eexists. split; [left | reflexivity].
Defined.

(** X20.  Where a URL selected from the descriptor list comes from.  It
    is the URL of the first maximum of the MP4/AVC descriptors, which may be
    the empty string; or there is no MP4/AVC descriptor and it is the URL of
    the first maximum of the descriptors with a URL, and then it is not
    empty; or neither kind of descriptor exists and the value left by the
    earlier steps is kept.  So an empty string drawn from the list can only
    be the URL of the first maximum of the MP4/AVC descriptors. *)
Theorem select_from_formats_source (d : option pystr) (fmts : list format)
    (u : pystr) :
  select_from_formats d fmts = Some u ->
  ((exists f, is_first_max (preferred fmts) f /\ f ∈ fmts /\
              is_preferred f = true /\ f_url f = Some u) \/
   (preferred fmts = [] /\
    exists f, is_first_max (with_url fmts) f /\ f ∈ fmts /\
              f_url f = Some u /\ u <> []) \/
   (preferred fmts = [] /\ with_url fmts = [] /\ d = Some u)) /\
  (d = None -> preferred fmts = [] -> u <> []) /\
  (d = None -> u = [] ->
   exists f, is_first_max (preferred fmts) f /\ f_url f = Some []).
Proof.
  intros Hs.
  assert (H : (exists f, is_first_max (preferred fmts) f /\ f ∈ fmts /\
                         is_preferred f = true /\ f_url f = Some u) \/
              (preferred fmts = [] /\
               exists f, is_first_max (with_url fmts) f /\ f ∈ fmts /\
                         f_url f = Some u /\ u <> []) \/
              (preferred fmts = [] /\ with_url fmts = [] /\ d = Some u)).
  { unfold select_from_formats in Hs.
    destruct (sort_desc (preferred fmts)) as [|b rest] eqn:Ep.
    - apply sort_desc_nil in Ep. right.
      destruct (sort_desc (with_url fmts)) as [|b rest] eqn:Eu.
      + apply sort_desc_nil in Eu. by right.
      + left. split; [done|]. exists b.
        apply sort_desc_head in Eu.
        destruct (proj1 (elem_of_with_url _ _) (is_first_max_elem _ _ Eu))
          as [Hin Ht].
        split_and!; [done | done | done |].
        rewrite Hs in Ht. by destruct u.
    - left. exists b. apply sort_desc_head in Ep.
      destruct (proj1 (elem_of_preferred _ _) (is_first_max_elem _ _ Ep))
        as [Hin Hp].
      by split_and!. }
  split; [exact H|]. split.
  - intros -> Hp.
    destruct H as [(f & Hf & _)|[(_ & f & _ & _ & _ & Hu)|(_ & _ & [=])]].
    + apply is_first_max_elem in Hf. rewrite Hp in Hf.
      by apply elem_of_nil in Hf.
    + exact Hu.
  - intros -> ->.
    destruct H
      as [(f & Hf & _ & _ & Hu)|[(_ & f & _ & _ & _ & Hu)|(_ & _ & [=])]].
    + by exists f.
    + done.
Qed.

Lemma select_from_formats_source_witness :
  (exists f, is_first_max (preferred sample_heights) f /\ f ∈ sample_heights /\
             is_preferred f = true /\
             f_url f = Some (py "https://v.example/1080")) \/
  (preferred sample_heights = [] /\
   exists f, is_first_max (with_url sample_heights) f /\ f ∈ sample_heights /\
             f_url f = Some (py "https://v.example/1080") /\
             py "https://v.example/1080" <> []) \/
  (preferred sample_heights = [] /\ with_url sample_heights = [] /\
   None = Some (py "https://v.example/1080")).
Proof.
  apply (select_from_formats_source None sample_heights
           (py "https://v.example/1080")).
  by vm_compute.
Defined.

(** ** File names once more, and paths *)

Lemma drop_while_id P s :
  (forall c t, s = c :: t -> P c = false) -> drop_while P s = s.
Proof.
  destruct s as [|c t]; [done|]. intros H. simpl. by rewrite (H c t).
Qed.

Lemma sub_forbidden_id s :
  (forall c, c ∈ s -> is_forbidden c = false) -> sub_forbidden s = s.
Proof.
  induction s as [|c s IH]; intros H; simpl; [done|].
  rewrite (H c) by left. f_equal. apply IH. intros c' Hc'. apply H. by right.
Qed.

(** X10.  A name that needs no repair passes unchanged: a non-empty name of
    at most 100 characters, none of them forbidden, with no white space at
    either end, gets ".mp4" appended and nothing else. *)
Theorem safe_filename_clean (name : pystr) :
  name <> [] ->
  (length name <= 100)%nat ->
  (forall c, c ∈ name -> is_forbidden c = false) ->
  (forall c t, name = c :: t -> is_space c = false) ->
  (forall c t, name = t ++ [c] -> is_space c = false) ->
  safe_filename (Some name) = name ++ py ".mp4".
Proof.
  intros Hne Hlen Hok Hfirst Hlast.
  unfold safe_filename, safe_filename_with.
  change (default [] (Some name)) with name.
  assert (Hor : forall fb, str_or name fb = name) by (by destruct name).
  assert (Hs : strip name = name).
  { unfold strip. rewrite (drop_while_id is_space name) by done.
    rewrite (drop_while_id is_space (rev name)); [apply rev_involutive|].
    intros c t Hr. apply (Hlast c (rev t)).
    apply (f_equal (@rev N)) in Hr. by rewrite rev_involutive in Hr. }
  by rewrite Hor, Hs, (sub_forbidden_id name Hok), take_ge, Hor.
Qed.

Lemma safe_filename_clean_witness :
  safe_filename (Some (py "clip 7301")) = py "clip 7301.mp4".
Proof.
  apply (safe_filename_clean (py "clip 7301")).
  - discriminate.
  - vm_compute. lia.
  - apply Forall_forall. by vm_compute; repeat constructor.
  - by intros c t [= <- _].
  - intros c t H. apply (f_equal (@rev N)) in H.
    rewrite rev_app_distr in H. by injection H as <-.
Defined.

Lemma rfind_from_app c a b i acc :
  rfind_from c (a ++ b) i acc =
  rfind_from c b (i + length a) (rfind_from c a i acc).
Proof.
  revert i acc. induction a as [|x a IH]; intros i acc; simpl.
  - by rewrite Nat.add_0_r.
  - rewrite IH. f_equal. lia.
Qed.

Lemma rfind_from_absent c s i acc : c ∉ s -> rfind_from c s i acc = acc.
Proof.
  revert i acc. induction s as [|x s IH]; intros i acc Hc; simpl; [done|].
  apply not_elem_of_cons in Hc as [Hx Hs].
  rewrite IH by done. destruct (N.eqb_spec x c); congruence.
Qed.

Lemma rfind_absent c s : c ∉ s -> rfind c s = None.
Proof. apply rfind_from_absent. Qed.

Lemma rfind_last c a b : c ∉ b -> rfind c (a ++ c :: b) = Some (length a).
Proof.
  intros Hb. unfold rfind. rewrite rfind_from_app. simpl.
  rewrite N.eqb_refl. by apply rfind_from_absent.
Qed.

Lemma basename_join d name :
  slash ∉ name -> basename (d ++ slash :: name) = name.
Proof.
  intros Hn. unfold basename, after_last. rewrite (rfind_last slash d name Hn).
  change (d ++ slash :: name) with (d ++ [slash] ++ name).
  rewrite app_assoc. apply drop_app_length'. rewrite length_app. simpl. lia.
Qed.

Lemma splitext_root_stem stem ext :
  slash ∉ stem -> slash ∉ ext -> dot ∉ ext ->
  existsb (fun c => negb (c =? dot)%N) stem = true ->
  splitext_root (stem ++ dot :: ext) = stem.
Proof.
  intros Hs He Hd Hx. unfold splitext_root, after_last.
  rewrite (rfind_last dot stem ext Hd).
  rewrite rfind_absent.
  - by rewrite take_app_length, drop_0, Hx.
  - intros [H|H]%elem_of_app; [done|].
    apply elem_of_cons in H as [H|H]; [discriminate | done].
Qed.

(** X11.  The stem the file name is made from when there is no hint: for
    a path [d/stem.ext] (no separator in [stem] or [ext], no dot in [ext], a
    character other than a dot in [stem]) it is [stem]; a name that is
    nothing but leading dots and an extension, like ".mp4", is its own
    stem. *)
Theorem stem_of_path (d stem ext : pystr) :
  slash ∉ stem -> slash ∉ ext -> dot ∉ ext ->
  (existsb (fun c => negb (c =? dot)%N) stem = true ->
   splitext_root (basename (d ++ slash :: stem ++ dot :: ext)) = stem) /\
  (existsb (fun c => negb (c =? dot)%N) stem = false ->
   splitext_root (basename (d ++ slash :: stem ++ dot :: ext)) =
   stem ++ dot :: ext).
Proof.
  intros Hs He Hd.
  assert (Hb : basename (d ++ slash :: stem ++ dot :: ext) =
               stem ++ dot :: ext).
  { apply basename_join. intros [H|H]%elem_of_app; [done|].
    apply elem_of_cons in H as [H|H]; [discriminate | done]. }
  rewrite Hb. split; [by apply splitext_root_stem|].
  intros Hx. unfold splitext_root, after_last.
  rewrite (rfind_last dot stem ext Hd).
  rewrite rfind_absent.
  - by rewrite take_app_length, drop_0, Hx.
  - intros [H|H]%elem_of_app; [done|].
    apply elem_of_cons in H as [H|H]; [discriminate | done].
Qed.

Lemma stem_of_path_witness :
  splitext_root (basename sample_file) = py "7301" /\
  splitext_root (basename (py "/tmp/ttdl_k3w0/.mp4")) = py ".mp4".
Proof.
  split.
  - apply (stem_of_path (py "/tmp/ttdl_k3w0") (py "7301") (py "mp4"));
      try (by vm_compute).
    all: rewrite list_elem_of_In; by vm_compute; intuition discriminate.
  - apply (stem_of_path (py "/tmp/ttdl_k3w0") [] (py "mp4"));
      try (by vm_compute).
    all: rewrite list_elem_of_In; by vm_compute; intuition discriminate.
Defined.

(** ** Directories *)

Lemma plain_last d :
  d <> [] -> endswith [slash] d = false ->
  exists x t, rev d = x :: t /\ x <> slash.
Proof.
  intros Hd He. unfold endswith in He.
  change (rev [slash]) with [slash] in He.
  destruct (rev d) as [|x t] eqn:E.
  - apply (f_equal (@rev N)) in E. rewrite rev_involutive in E. done.
  - exists x, t. split; [done|]. cbn [startswith] in He.
    destruct (N.eqb_spec slash x) as [<-|Hx]; [|congruence].
    by destruct t.
Qed.

Lemma path_join_plain d name :
  d <> [] -> endswith [slash] d = false ->
  name <> [] -> slash ∉ name ->
  path_join d name = d ++ slash :: name.
Proof.
  intros Hd He Hn Hs. unfold path_join.
  destruct name as [|c name]; [done|]. apply not_elem_of_cons in Hs as [Hc _].
  cbn [startswith]. destruct (N.eqb_spec slash c) as [E|_]; [by destruct Hc|].
  cbn [andb]. by rewrite He, orb_false_r, bool_decide_eq_false_2.
Qed.

Lemma child_of_spec d p name :
  child_of d p = Some name ->
  p = d ++ slash :: name /\ name <> [] /\ slash ∉ name.
Proof.
  unfold child_of.
  destruct (startswith (d ++ [slash]) p) eqn:Es; [|done].
  apply startswith_app in Es as [t ->].
  rewrite drop_app_length. simpl.
  destruct (bool_decide (t = [])) eqn:En; [done|].
  destruct (bool_decide (slash ∈ t)) eqn:Ei; [done|]. simpl.
  intros [= <-]. apply bool_decide_eq_false in En, Ei.
  by rewrite <- app_assoc.
Qed.

Lemma listdir_elem d w name :
  name ∈ listdir d w ->
  path_exists (d ++ slash :: name) w = true /\ name <> [] /\ slash ∉ name.
Proof.
  unfold listdir. rewrite list_elem_of_omap.
  intros (p & Hp & Hc). apply child_of_spec in Hc as (-> & Hn & Hs).
  split; [|done]. unfold path_exists. apply orb_true_iff.
  apply elem_of_app in Hp as [Hp|Hp]; [left | right];
    by apply bool_decide_eq_true.
Qed.

Lemma find_first {A : Type} (f : A -> bool) (pre post : list A) (x : A) :
  Forall (fun y => f y = false) pre -> f x = true ->
  List.find f (pre ++ x :: post) = Some x.
Proof.
  intros Hpre Hx. induction Hpre as [|y pre Hy _ IH]; simpl.
  - by rewrite Hx.
  - by rewrite Hy.
Qed.

(** X12.  Where [try_download] looks for the file: a reported path that
    exists is taken as it is; otherwise the directory is scanned and the
    first entry whose name ends in ".mp4" (in either case of the letters) is
    taken, entries before it with other names being passed over; the path
    made from it exists. *)
Theorem locate_scans (tmpdir : pystr) (w : world) (i : info) :
  (reported_exists w i = true ->
   locate tmpdir w i = reported_path i /\
   exists p, reported_path i = Some p /\ p <> [] /\ path_exists p w = true) /\
  (forall pre name post,
     reported_exists w i = false ->
     listdir tmpdir w = pre ++ name :: post ->
     Forall (fun n => ends_mp4 n = false) pre ->
     ends_mp4 name = true ->
     locate tmpdir w i = Some (path_join tmpdir name) /\
     (tmpdir <> [] -> endswith [slash] tmpdir = false ->
      path_join tmpdir name = tmpdir ++ slash :: name /\
      path_exists (path_join tmpdir name) w = true)).
Proof.
  split.
  - intros H. unfold locate. rewrite H. split; [done|].
    unfold reported_exists in H.
    apply andb_true_iff in H as [H He]. apply andb_true_iff in H as [_ Ht].
    apply truthy_spec in Ht as (p & Hp & Hne). exists p.
    rewrite Hp in He. done.
  - intros pre name post H Hl Hpre Hname. unfold locate.
    rewrite H, Hl, (find_first ends_mp4 pre post name Hpre Hname).
    split; [done|]. intros Hd He.
    destruct (listdir_elem tmpdir w name) as (Hex & Hn & Hs).
    { rewrite Hl. apply elem_of_app. right. left. }
    by rewrite (path_join_plain tmpdir name Hd He Hn Hs).
Qed.

Lemma locate_scans_witness :
  locate sample_tmpdir
    {| files := [py "/tmp/ttdl_k3w0/7301.f1.m4a"; py "/tmp/ttdl_k3w0/7301.MP4"];
       dirs := [sample_tmpdir]; now := 0 |}
    (mk_info None None None) =
  Some (py "/tmp/ttdl_k3w0/7301.MP4").
Proof.
  destruct (locate_scans sample_tmpdir
              {| files := [py "/tmp/ttdl_k3w0/7301.f1.m4a";
                           py "/tmp/ttdl_k3w0/7301.MP4"];
                 dirs := [sample_tmpdir]; now := 0 |}
              (mk_info None None None)) as [_ H].
  destruct (H [py "7301.f1.m4a"] (py "7301.MP4") []) as [-> _].
  - reflexivity.
  - by vm_compute.
  - by repeat constructor.
  - reflexivity.
  - by vm_compute.
Defined.

(** ** The materializer: when it fails, what it returns *)

Lemma located_exists tmpdir w i p :
  tmpdir <> [] -> endswith [slash] tmpdir = false ->
  locate tmpdir w i = Some p -> path_exists p w = true.
Proof.
  intros Hd He. unfold locate.
  destruct (reported_exists w i) eqn:E.
  - intros Hp. unfold reported_exists in E.
    apply andb_true_iff in E as [_ E]. by rewrite Hp in E.
  - destruct (List.find ends_mp4 (listdir tmpdir w)) as [name|] eqn:F; [|done].
    intros [= <-]. apply find_some in F as [Hin _].
    apply list_elem_of_In, listdir_elem in Hin as (Hex & Hn & Hs).
    by rewrite (path_join_plain tmpdir name Hd He Hn Hs).
Qed.

Lemma yield_exists tmpdir out :
  tmpdir <> [] -> endswith [slash] tmpdir = false ->
  truthy (yield tmpdir out) = true ->
  path_exists (default [] (yield tmpdir out)) out.1 = true.
Proof.
  intros Hd He. unfold yield. destruct out as [w [|r]]; simpl; [done|].
  destruct (locate tmpdir w (r_info r)) as [p|] eqn:E; [|done].
  intros _. simpl. by eapply located_exists.
Qed.

(** X13.  With a temporary directory name as [mkdtemp] gives it (not
    empty, no separator at its end), the materializer raises exactly when
    both strategies fail: a file a strategy located is there when the path
    is checked again, so no located file is ever given up. *)
Theorem materializer_fails_iff
    (ydl : ydl_opts -> pystr -> bool -> world -> world * outcome)
    (mk : world -> pystr) (url : pystr) (hint : option pystr) (s : state) :
  let tmpdir := mk (st_world s) in
  let tmpl := path_join tmpdir (py "%(id)s.%(ext)s") in
  let w0 := {| files := files (st_world s);
               dirs := tmpdir :: dirs (st_world s);
               now := now (st_world s) |} in
  let wA := (ydl (opts1 tmpl) url true w0).1 in
  tmpdir <> [] ->
  endswith [slash] tmpdir = false ->
  (yt_dlp_download_to_temp ydl mk url hint s).2 = Raise download_failed <->
  strategy_fails ydl url tmpdir (opts1 tmpl) w0 /\
  strategy_fails ydl url tmpdir (opts2 tmpl) wA.
Proof.
  intros tmpdir tmpl w0 wA Hd He.
  rewrite (yt_dlp_download_to_temp_run ydl mk url hint s).
  fold tmpdir. fold tmpl. fold w0. fold wA.
  rewrite <- (yield_fails ydl url tmpdir (opts1 tmpl) w0).
  rewrite <- (yield_fails ydl url tmpdir (opts2 tmpl) wA).
  destruct (truthy (yield tmpdir (ydl (opts1 tmpl) url true w0))) eqn:Ea.
  - pose proof (yield_exists tmpdir _ Hd He Ea) as Hex. fold wA in Hex.
    rewrite ?Ea, Hex. simpl. split; [done | by intros [? _]].
  - destruct (truthy (yield tmpdir (ydl (opts2 tmpl) url true wA))) eqn:Eb.
    + pose proof (yield_exists tmpdir _ Hd He Eb) as Hex.
      rewrite ?Eb, Hex. simpl. split; [done | by intros [_ ?]].
    + rewrite ?Eb. simpl. done.
Qed.

Lemma materializer_fails_iff_witness :
  (yt_dlp_download_to_temp ydl_no_ffmpeg mkdtemp_fixed sample_url None
     (sample_state 100)).2 <> Raise download_failed.
Proof.
  intros H.
  apply (materializer_fails_iff ydl_no_ffmpeg mkdtemp_fixed sample_url None
           (sample_state 100)) in H as [_ H].
  - revert H. by vm_compute.
  - discriminate.
  - reflexivity.
Defined.

(** X14.  When the materializer returns [(path, fname)]: the path exists
    at that moment; it is what strategy A yielded, or, A having failed,
    what strategy B yielded; the materializer itself removed nothing (the
    world is as the last extractor run left it); and the file name is the
    sanitized hint when the hint is a non-empty string, the sanitized stem
    of the path otherwise. *)
Theorem materializer_success
    (ydl : ydl_opts -> pystr -> bool -> world -> world * outcome)
    (mk : world -> pystr) (url : pystr) (hint : option pystr) (s : state)
    (path fname : pystr) :
  let tmpdir := mk (st_world s) in
  let tmpl := path_join tmpdir (py "%(id)s.%(ext)s") in
  let w0 := {| files := files (st_world s);
               dirs := tmpdir :: dirs (st_world s);
               now := now (st_world s) |} in
  let ra := ydl (opts1 tmpl) url true w0 in
  let rb := ydl (opts2 tmpl) url true ra.1 in
  let s' := (yt_dlp_download_to_temp ydl mk url hint s).1 in
  (yt_dlp_download_to_temp ydl mk url hint s).2 = Ret (path, fname) ->
  path_exists path (st_world s') = true /\
  path <> [] /\
  (yield tmpdir ra = Some path /\ st_world s' = ra.1 \/
   yield tmpdir ra = None /\ yield tmpdir rb = Some path /\
   st_world s' = rb.1) /\
  (truthy hint = true -> fname = safe_filename hint) /\
  (truthy hint = false ->
   fname = safe_filename (Some (splitext_root (basename path)))).
Proof.
  intros tmpdir tmpl w0 ra rb s'. subst s'.
  rewrite (yt_dlp_download_to_temp_run ydl mk url hint s).
  fold tmpdir. fold tmpl. fold w0. fold ra. fold rb.
  assert (Hname : forall p,
            (truthy hint = true ->
             safe_filename (py_or hint (Some p)) = safe_filename hint) /\
            (truthy hint = false ->
             safe_filename (py_or hint (Some p)) = safe_filename (Some p))).
  { intros p. unfold py_or. by destruct (truthy hint). }
  assert (Hy : forall out, truthy (yield tmpdir out) = false ->
                           yield tmpdir out = None).
  { intros out. unfold yield. destruct out.2; [done|]. apply locate_truthy. }
  destruct (truthy (yield tmpdir ra)) eqn:Ea.
  - destruct (yield tmpdir ra) as [[|c p]|] eqn:Eya; try done. simpl.
    destruct (path_exists (c :: p) ra.1) eqn:Ex; simpl; [|done].
    intros [= <- <-]. split_and!; try done; [by left | apply Hname..].
  - apply Hy in Ea as Eya.
    destruct (yield tmpdir rb) as [[|c p]|] eqn:Eyb; try done. simpl.
    destruct (path_exists (c :: p) rb.1) eqn:Ex; simpl; [|done].
    intros [= <- <-]. split_and!; try done; [by right | apply Hname..].
Qed.

Lemma materializer_success_witness :
  path_exists sample_file
    (st_world (yt_dlp_download_to_temp ydl_no_ffmpeg mkdtemp_fixed sample_url
                 None (sample_state 100)).1) = true.
Proof.
  by destruct (materializer_success ydl_no_ffmpeg mkdtemp_fixed sample_url None
                 (sample_state 100) sample_file (py "7301.mp4") eq_refl)
    as [H _].
Defined.

(** ** The download endpoint: extractor runs and cleaning up *)

(** X15.  An extractor failure during the metadata step ends a download
    request at once with that error: no temporary directory is made, no
    download strategy is run, and nothing but the extractor touched the
    world. *)
Theorem download_aborts_on_metadata_error
    (ydl : ydl_opts -> pystr -> bool -> world -> world * outcome)
    (mk : world -> pystr) (url : pystr) (s : state) :
  (ydl YDL_BASE url false (st_world s)).2 = Raised ->
  download_request ydl mk url s =
    ({| st_cache := st_cache s;
        st_world := (ydl YDL_BASE url false (st_world s)).1;
        st_trace := st_trace s ++ [EvExtract YDL_BASE url false] |},
     Raise ExtractorError) /\
  api_tiktok_download ydl mk url s = download_request ydl mk url s.
Proof.
  intros H. unfold download_request, api_tiktok_download, bind.
  by rewrite extract_info_run, H.
Qed.

Lemma download_aborts_on_metadata_error_witness :
  (download_request ydl_offline mkdtemp_fixed sample_url (sample_state 100)).2 =
  Raise ExtractorError.
Proof.
  destruct (download_aborts_on_metadata_error ydl_offline mkdtemp_fixed
              sample_url (sample_state 100) eq_refl) as [-> _].
  reflexivity.
Defined.

Lemma cleanup_run path s :
  exists w' evs,
    cleanup path s =
      ({| st_cache := st_cache s; st_world := w';
          st_trace := st_trace s ++ evs |}, Ret tt) /\
    (evs = [] \/ evs = [EvRmtree (dirname path)]).
Proof.
  destruct s as [c w tr].
  unfold cleanup, bind, get_world, set_world, do_rmtree, log, ret. simpl.
  destruct (path_exists path w && isdir path w); simpl.
  { exists w, []. rewrite app_nil_r. by split; [|left]. }
  destruct (path_exists path w); simpl.
  - destruct (isdir (dirname path) (remove_file path w)); simpl.
    + eexists _, _. by split; [|right].
    + eexists _, []. rewrite app_nil_r. by split; [|left].
  - destruct (isdir (dirname path) w); simpl.
    + eexists _, _. by split; [|right].
    + eexists _, []. rewrite app_nil_r. by split; [|left].
Qed.

Lemma extractor_runs_app tr tr' :
  extractor_runs (tr ++ tr') = (extractor_runs tr + extractor_runs tr')%nat.
Proof. unfold extractor_runs. by rewrite List.filter_app, length_app. Qed.

Lemma materializer_runs
    (ydl : ydl_opts -> pystr -> bool -> world -> world * outcome)
    (mk : world -> pystr) (url : pystr) (hint : option pystr) (s : state) :
  exists evs,
    st_trace (yt_dlp_download_to_temp ydl mk url hint s).1 = st_trace s ++ evs /\
    (extractor_runs evs <= 2)%nat.
Proof.
  rewrite yt_dlp_download_to_temp_run.
  repeat match goal with
         | |- context [if ?b then _ else _] => destruct b
         end; simpl; eexists; (split; [reflexivity|]);
    unfold extractor_runs; simpl; lia.
Qed.

Lemma cleanup_runs path s :
  exists evs,
    st_trace (cleanup path s).1 = st_trace s ++ evs /\ extractor_runs evs = 0%nat.
Proof.
  destruct (cleanup_run path s) as (w' & evs & -> & [->| ->]); simpl;
    eexists; by split.
Qed.

Lemma download_request_runs
    (ydl : ydl_opts -> pystr -> bool -> world -> world * outcome)
    (mk : world -> pystr) (url : pystr) (s : state) :
  exists evs,
    st_trace (download_request ydl mk url s).1 =
      st_trace s ++ EvExtract YDL_BASE url false :: evs /\
    (extractor_runs evs <= 2)%nat.
Proof.
  unfold download_request, api_tiktok_download, bind.
  rewrite extract_info_run.
  destruct (ydl YDL_BASE url false (st_world s)).2 as [|r]; simpl.
  { exists []. split; [done|]. unfold extractor_runs. simpl. lia. }
  match goal with
  | |- context [yt_dlp_download_to_temp ydl mk url ?h ?st] =>
      destruct (materializer_runs ydl mk url h st) as (evs & Ht & Hn);
      destruct (yt_dlp_download_to_temp ydl mk url h st) as [s2 [[p f]|e]]
  end; simpl in *.
  - destruct (cleanup_runs p s2) as (evs' & Ht' & Hn').
    destruct (cleanup p s2) as [s3 [[]|e]]; simpl in *.
    + exists (evs ++ evs'). rewrite Ht', Ht, <- !app_assoc. split; [done|].
      rewrite extractor_runs_app. lia.
    + exists (evs ++ evs'). rewrite Ht', Ht, <- !app_assoc. split; [done|].
      rewrite extractor_runs_app. lia.
  - exists evs. by rewrite Ht, <- app_assoc.
Qed.

(** X16.  A request to the metadata endpoint runs the extractor at most
    once; a download request runs it at least once and at most three
    times (the metadata run and up to two download runs). *)
Theorem extractor_runs_bound
    (ydl : ydl_opts -> pystr -> bool -> world -> world * outcome)
    (mk : world -> pystr) (url : pystr) (s : state) :
  (extractor_runs (new_events s (api_tiktok ydl url s).1) <= 1)%nat /\
  (1 <= extractor_runs (new_events s (download_request ydl mk url s).1) <= 3)%nat.
Proof.
  split.
  - destruct (cache_get url (now (st_world s)) (st_cache s)).2 as [data|] eqn:E.
    + rewrite (api_tiktok_hit ydl url s data E). simpl.
      rewrite (new_events_app s _ [EvCacheGet url]) by done. unfold extractor_runs; simpl; lia.
    + destruct (ydl YDL_BASE url false (st_world s)).2 as [|r] eqn:Ey.
      * rewrite (api_tiktok_raise ydl url s E Ey). simpl.
        rewrite (new_events_app s _ [EvCacheGet url; EvExtract YDL_BASE url false])
          by done. unfold extractor_runs; simpl; lia.
      * rewrite (api_tiktok_resolved ydl url s r E Ey). simpl.
        rewrite (new_events_app s _ [EvCacheGet url; EvExtract YDL_BASE url false;
                                     EvCacheSet url]) by done. unfold extractor_runs; simpl; lia.
  - destruct (download_request_runs ydl mk url s) as (evs & Ht & Hn).
    rewrite (new_events_app s _ _ Ht).
    change (EvExtract YDL_BASE url false :: evs)
      with ([EvExtract YDL_BASE url false] ++ evs).
    rewrite extractor_runs_app.
    change (extractor_runs [EvExtract YDL_BASE url false]) with 1%nat. lia.
Qed.

Lemma dirname_join d name :
  d <> [] -> endswith [slash] d = false -> slash ∉ name ->
  dirname (d ++ slash :: name) = d.
Proof.
  intros Hd He Hn. destruct (plain_last d Hd He) as (x & t & Hr & Hx).
  unfold dirname, after_last. rewrite (rfind_last slash d name Hn).
  change (d ++ slash :: name) with (d ++ [slash] ++ name).
  rewrite app_assoc.
  assert (Hlen : S (length d) = length (d ++ [slash]))
    by (rewrite length_app; simpl; lia).
  rewrite Hlen, take_app_length.
  assert (Hd' : d = rev t ++ [x]).
  { apply (f_equal (@rev N)) in Hr. by rewrite rev_involutive in Hr. }
  assert (Hall : forallb (N.eqb slash) (d ++ [slash]) = false).
  { rewrite Hd', !forallb_app. cbn [forallb].
    destruct (N.eqb_spec slash x) as [E|_]; [by destruct Hx|].
    by destruct (forallb (N.eqb slash) (rev t)). }
  rewrite Hall, rev_app_distr, Hr. cbn [rev app drop_while].
  rewrite N.eqb_refl.
  destruct (N.eqb_spec slash x) as [E|_]; [by destruct Hx|].
  by rewrite <- Hr, rev_involutive.
Qed.

Lemma rmtree_outside d w p :
  under d p = false -> path_exists p (rmtree d w) = path_exists p w.
Proof.
  intros Hu. unfold path_exists, rmtree. simpl.
  assert (Hs : startswith (d ++ [slash]) p = false).
  { unfold under in Hu. by apply orb_false_iff in Hu as [_ ?]. }
  f_equal; apply bool_decide_ext; rewrite !list_elem_of_In, filter_In;
    rewrite ?Hu, ?Hs; simpl; tauto.
Qed.

Lemma remove_file_other q w p :
  p <> q -> path_exists p (remove_file q w) = path_exists p w.
Proof.
  intros Hne. unfold path_exists, remove_file. simpl.
  f_equal. apply bool_decide_ext. rewrite !list_elem_of_In, filter_In.
  rewrite bool_decide_eq_false_2 by done. simpl. tauto.
Qed.

(** The background task on a path that is no directory, in a directory. *)
Lemma cleanup_file_run path s :
  isdir path (st_world s) = false ->
  isdir (dirname path) (st_world s) = true ->
  st_world (cleanup path s).1 =
  rmtree (dirname path)
    (if path_exists path (st_world s) then remove_file path (st_world s)
     else st_world s).
Proof.
  destruct s as [c w tr]. simpl. intros Hfile Hdir.
  unfold cleanup, bind, get_world, set_world, do_rmtree, log, ret. simpl.
  rewrite Hfile, andb_false_r.
  destruct (path_exists path w); simpl.
  - assert (Hdir' : isdir (dirname path) (remove_file path w) = true)
      by exact Hdir.
    by rewrite Hdir'.
  - by rewrite Hdir.
Qed.

(** X17.  The background task on a file directly inside a directory: the
    file is gone afterwards, the directory is no directory any more, no
    path below it is left, and every path outside it is as before. *)
Theorem cleanup_removes (d name : pystr) (s : state) :
  d <> [] ->
  endswith [slash] d = false ->
  name <> [] ->
  slash ∉ name ->
  isdir d (st_world s) = true ->
  isdir (d ++ slash :: name) (st_world s) = false ->
  let w' := st_world (cleanup (d ++ slash :: name) s).1 in
  path_exists (d ++ slash :: name) w' = false /\
  isdir d w' = false /\
  (forall p, startswith (d ++ [slash]) p = true -> path_exists p w' = false) /\
  (forall p, under d p = false -> path_exists p w' = path_exists p (st_world s)).
Proof.
  intros Hd He Hn Hs Hdir Hfile w'. subst w'.
  assert (Hbelow : startswith (d ++ [slash]) (d ++ slash :: name) = true).
  { apply startswith_app. exists name. by rewrite <- app_assoc. }
  assert (Hout : forall p, under d p = false -> p <> d ++ slash :: name).
  { intros p Hu ->. unfold under in Hu. by rewrite Hbelow, orb_true_r in Hu. }
  rewrite cleanup_file_run, (dirname_join d name Hd He Hs);
    [|done | by rewrite (dirname_join d name Hd He Hs)].
  split_and!.
  - by apply rmtree_below.
  - apply rmtree_isdir.
  - intros p. apply rmtree_below.
  - intros p Hu. rewrite rmtree_outside by done.
    destruct (path_exists (d ++ slash :: name) (st_world s)); [|done].
    apply remove_file_other. by apply Hout.
Qed.

Lemma cleanup_removes_witness :
  path_exists sample_file
    (st_world (cleanup sample_file
                 {| st_cache := ∅; st_world := sample_world_file;
                    st_trace := [] |}).1) = false.
Proof.
  destruct (cleanup_removes sample_tmpdir (py "7301.mp4")
              {| st_cache := ∅; st_world := sample_world_file;
                 st_trace := [] |}) as [H _]; try done.
  rewrite list_elem_of_In. by vm_compute; intuition discriminate.
Defined.

(** X18.  A path that is a directory stops the background task: it
    changes nothing, and the directory stays. *)
Theorem cleanup_keeps_directory (path : pystr) (s : state) :
  isdir path (st_world s) = true ->
  cleanup path s = (s, Ret tt).
Proof.
  intros Hdir. unfold cleanup, bind, get_world, ret. simpl.
  unfold isdir in Hdir. unfold path_exists, isdir.
  by rewrite Hdir, orb_true_r.
Qed.

Lemma cleanup_keeps_directory_witness :
  st_world (cleanup sample_tmpdir
              {| st_cache := ∅; st_world := sample_world_file;
                 st_trace := [] |}).1 = sample_world_file.
Proof.
  by rewrite (cleanup_keeps_directory sample_tmpdir
                {| st_cache := ∅; st_world := sample_world_file;
                   st_trace := [] |} eq_refl).
Defined.

(** X19.  A served download leaves nothing behind: when the handler
    answers with a file directly inside a directory, the whole request,
    background task included, gives the same answer and ends with that
    directory removed and no path left below it. *)
Theorem download_request_cleans
    (ydl : ydl_opts -> pystr -> bool -> world -> world * outcome)
    (mk : world -> pystr) (url d name mt fname : pystr) (s s1 : state) :
  api_tiktok_download ydl mk url s =
    (s1, Ret (FileResponse (d ++ slash :: name) mt fname)) ->
  d <> [] ->
  endswith [slash] d = false ->
  name <> [] ->
  slash ∉ name ->
  isdir d (st_world s1) = true ->
  isdir (d ++ slash :: name) (st_world s1) = false ->
  let s2 := (download_request ydl mk url s).1 in
  (download_request ydl mk url s).2 =
    Ret (FileResponse (d ++ slash :: name) mt fname) /\
  isdir d (st_world s2) = false /\
  (forall p, startswith (d ++ [slash]) p = true ->
             path_exists p (st_world s2) = false) /\
  st_cache s2 = st_cache s1.
Proof.
  intros Hrun Hd He Hn Hs Hdir Hfile s2. subst s2.
  unfold download_request, bind. rewrite Hrun.
  destruct (cleanup_removes d name s1 Hd He Hn Hs Hdir Hfile)
    as (_ & H1 & H2 & _).
  destruct (cleanup_frame (d ++ slash :: name) s1) as [Hc _].
  destruct (cleanup_run (d ++ slash :: name) s1) as (w' & evs & Hcl & _).
  rewrite Hcl in *. by simpl in *.
Qed.

Lemma download_request_cleans_witness :
  path_exists sample_file
    (st_world (download_request ydl_no_ffmpeg mkdtemp_fixed sample_url
                 (sample_state 100)).1) = false.
Proof.
  destruct (download_request_cleans ydl_no_ffmpeg mkdtemp_fixed sample_url
              sample_tmpdir (py "7301.mp4") (py "video/mp4") (py "clip.mp4")
              (sample_state 100)
              (api_tiktok_download ydl_no_ffmpeg mkdtemp_fixed sample_url
                 (sample_state 100)).1) as (_ & _ & H & _);
    [done | done | done | done | | done | done | exact (H sample_file eq_refl)].
  rewrite list_elem_of_In. by vm_compute; intuition discriminate.
Defined.
